(** * Scroll-video synchronizer (RECATI/script.js) and moon phase (DAMI/static/js/app.js)

    A shallow embedding of the two scripts and the properties their
    specification states about them.

    Numbers.  JavaScript numbers are IEEE-754 doubles.  They are modelled
    here as real numbers ([R]): [Math.max], [Math.min], [Math.abs] and
    [Math.exp] become [Rmax], [Rmin], [Rabs] and [exp]; rounding, NaN and
    the infinities are not modelled.  The one place where the source guards
    against a non-finite result (the division of [getPageProgress]) is
    modelled a second time with a checked division, see [js_div].  The
    properties stated are those that rounding does not undo; where the
    doubles do part from the reals, near the target of the smoothing,
    line 124 is evaluated on doubles in [Doubles].

    Effects.  The script mutates module-level variables and talks to three
    collaborators (scroll geometry, media element, canvas).  The variables
    are the fields of [state]; what the collaborators answer when they are
    read is an [env] handed to every event; what the script does to them
    (writing the playback position, redrawing, probing autoplay) is
    appended to the [trace] field. *)

From Stdlib Require Import Reals Lra Lia ZArith List Bool String PrimFloat.
Import ListNotations.

Local Open Scope R_scope.

(** ** Comparisons as the source writes them *)

Definition Rltb (x y : R) : bool := if Rlt_dec x y then true else false.
Definition Rleb (x y : R) : bool := if Rle_dec x y then true else false.
Definition Rgeb (x y : R) : bool := Rleb y x.
Definition Rgtb (x y : R) : bool := Rltb y x.
(** JavaScript truthiness of a number: [0] is falsy. *)
Definition truthy (x : R) : bool := if Req_dec_T x 0 then false else true.

Module Recati.

(** ** Constants (script.js, lines 3-9) *)

Definition FREEZE_TIME : R := 7.
Definition SCROLL_SLOP : R := 0.02.
Definition SEEK_FPS : R := 72.
Definition SMOOTH_RESPONSE : R := 11.
Definition MIN_TIME_STEP : R := 1 / 45.

(** ** clamp and getPageProgress *)

Definition clamp (n a b : R) : R := Rmax a (Rmin b n).

(** What the collaborators answer when the script reads them. *)
Record env := mkEnv {
  rect_top : R;            (* intro.getBoundingClientRect().top *)
  offsetHeight : R;        (* intro.offsetHeight *)
  innerHeight : R;         (* window.innerHeight *)
  duration : option R;     (* video.duration, None when not finite *)
  currentTime : R;         (* video.currentTime *)
  frameReady : bool;       (* videoWidth, videoHeight non-zero, readyState >= 2 *)
  perfNow : R;             (* performance.now() *)
  rvfcSupported : bool;    (* typeof video.requestVideoFrameCallback === "function" *)
  skipIntro : bool         (* the query parameter skipIntro is "1" *)
}.

Definition getPageProgress (e : env) : R :=
  let total := offsetHeight e - innerHeight e in
  let scrolled := clamp (- rect_top e) 0 total in
  if Rgtb total 0 then scrolled / total else 0.

(** A JavaScript division whose result is a finite number: [None] stands
    for the NaN or infinity a zero divisor produces. *)
Definition js_div (x y : R) : option R :=
  if Req_dec_T y 0 then None else Some (x / y).

(** [getPageProgress] again, with every division checked. *)
Definition getPageProgress_checked (e : env) : option R :=
  let total := offsetHeight e - innerHeight e in
  let scrolled := clamp (- rect_top e) 0 total in
  if Rgtb total 0 then js_div scrolled total else Some 0.


(** ** Module-level variables, page and effects *)

(** What the script does to its collaborators. *)
Inductive effect :=
  | SeekWrite (nowMs nextTime : R)  (* video.currentTime = nextTime, in the call made at nowMs *)
  | Redraw (painted : bool)         (* a call of drawFrame; painted = false when it returns early *)
  | PlayProbe.                      (* video.play() then video.pause() *)

(** The [let] variables of lines 21-30 ([vw], [vh] and the canvas size
    carry no behaviour that is studied here and are left out), the
    [site-ready] class of the body, the listeners and callbacks that are
    pending, and the effects so far (most recent first). *)
Record state := mkState {
  initialized : bool;
  targetTime : R;
  smoothTime : R;
  rafScheduled : bool;      (* a requestAnimationFrame(loop) callback is queued: rafId *)
  lastTick : R;
  lastSeekAt : R;
  lastRequestedTime : R;
  hasRVFC : bool;
  siteReady : bool;         (* document.body.classList has "site-ready" *)
  loadedListener : bool;    (* the once-only "loadeddata" listener is still attached *)
  awaitingPlay : bool;      (* init is suspended at await video.play() *)
  trace : list effect
}.

(** The state once the script has run to its end: [video.load()] has been
    requested and nothing has been notified yet. *)
Definition initial : state :=
  mkState false 0 0 false 0 0 (-1) false false true false [].

Definition set_initialized (v : bool) (s : state) : state :=
  mkState v (targetTime s) (smoothTime s) (rafScheduled s) (lastTick s)
    (lastSeekAt s) (lastRequestedTime s) (hasRVFC s) (siteReady s)
    (loadedListener s) (awaitingPlay s) (trace s).
Definition set_targetTime (v : R) (s : state) : state :=
  mkState (initialized s) v (smoothTime s) (rafScheduled s) (lastTick s)
    (lastSeekAt s) (lastRequestedTime s) (hasRVFC s) (siteReady s)
    (loadedListener s) (awaitingPlay s) (trace s).
Definition set_smoothTime (v : R) (s : state) : state :=
  mkState (initialized s) (targetTime s) v (rafScheduled s) (lastTick s)
    (lastSeekAt s) (lastRequestedTime s) (hasRVFC s) (siteReady s)
    (loadedListener s) (awaitingPlay s) (trace s).
Definition set_rafScheduled (v : bool) (s : state) : state :=
  mkState (initialized s) (targetTime s) (smoothTime s) v (lastTick s)
    (lastSeekAt s) (lastRequestedTime s) (hasRVFC s) (siteReady s)
    (loadedListener s) (awaitingPlay s) (trace s).
Definition set_lastTick (v : R) (s : state) : state :=
  mkState (initialized s) (targetTime s) (smoothTime s) (rafScheduled s) v
    (lastSeekAt s) (lastRequestedTime s) (hasRVFC s) (siteReady s)
    (loadedListener s) (awaitingPlay s) (trace s).
Definition set_lastSeek (at_ req : R) (s : state) : state :=
  mkState (initialized s) (targetTime s) (smoothTime s) (rafScheduled s)
    (lastTick s) at_ req (hasRVFC s) (siteReady s)
    (loadedListener s) (awaitingPlay s) (trace s).
Definition set_hasRVFC (v : bool) (s : state) : state :=
  mkState (initialized s) (targetTime s) (smoothTime s) (rafScheduled s)
    (lastTick s) (lastSeekAt s) (lastRequestedTime s) v (siteReady s)
    (loadedListener s) (awaitingPlay s) (trace s).
Definition set_loadedListener (v : bool) (s : state) : state :=
  mkState (initialized s) (targetTime s) (smoothTime s) (rafScheduled s)
    (lastTick s) (lastSeekAt s) (lastRequestedTime s) (hasRVFC s) (siteReady s)
    v (awaitingPlay s) (trace s).
Definition set_awaitingPlay (v : bool) (s : state) : state :=
  mkState (initialized s) (targetTime s) (smoothTime s) (rafScheduled s)
    (lastTick s) (lastSeekAt s) (lastRequestedTime s) (hasRVFC s) (siteReady s)
    (loadedListener s) v (trace s).
Definition emit (x : effect) (s : state) : state :=
  mkState (initialized s) (targetTime s) (smoothTime s) (rafScheduled s)
    (lastTick s) (lastSeekAt s) (lastRequestedTime s) (hasRVFC s) (siteReady s)
    (loadedListener s) (awaitingPlay s) (x :: trace s).

(** ** The functions of script.js *)

Definition setReadyState (isReady : bool) (s : state) : state :=
  mkState (initialized s) (targetTime s) (smoothTime s) (rafScheduled s)
    (lastTick s) (lastSeekAt s) (lastRequestedTime s) (hasRVFC s) isReady
    (loadedListener s) (awaitingPlay s) (trace s).

(** Lines 47-78.  The two early returns decide whether anything is
    painted; what is painted is not modelled. *)
Definition drawFrame (e : env) (s : state) : state :=
  emit (Redraw (frameReady e)) s.

(** Lines 80-89. *)
Definition resizeCanvas (e : env) (s : state) : state := drawFrame e s.

(** Lines 91-108.  The assignment to [video.currentTime] sits in a
    [try] with an empty [catch]: whether it throws changes nothing in
    the script, the attempt is what the trace records. *)
Definition safeDuration (e : env) : R :=
  match duration e with Some d => d | None => FREEZE_TIME end.

Definition nextTime (e : env) (time : R) : R :=
  clamp time 0 (Rmin FREEZE_TIME (safeDuration e)).

Definition minSeekInterval : R := 1000 / SEEK_FPS.

Definition seekToTime (e : env) (time nowMs : R) (s : state) : state :=
  if negb (initialized s) then s else
  if Rltb (nowMs - lastSeekAt s) minSeekInterval then s else
  if Rleb (Rabs (lastRequestedTime s - nextTime e time)) (MIN_TIME_STEP * 0.5)
  then s else
  if Rleb (Rabs (currentTime e - nextTime e time)) (MIN_TIME_STEP * 0.5)
  then s else
  emit (SeekWrite nowMs (nextTime e time))
    (set_lastSeek nowMs (nextTime e time) s).

(** The four early returns of [seekToTime] in one test: the call gets
    as far as the assignments. *)
Definition seek_accepts (e : env) (time nowMs : R) (s : state) : bool :=
  initialized s
  && negb (Rltb (nowMs - lastSeekAt s) minSeekInterval)
  && negb (Rleb (Rabs (lastRequestedTime s - nextTime e time)) (MIN_TIME_STEP * 0.5))
  && negb (Rleb (Rabs (currentTime e - nextTime e time)) (MIN_TIME_STEP * 0.5)).

(** Lines 110-113. *)
Definition updateTargetFromScroll (e : env) (s : state) : state :=
  let p := getPageProgress e in
  set_targetTime (clamp (p * FREEZE_TIME) 0 FREEZE_TIME) s.

(** The [dt] of line 119. *)
Definition tick_dt (s : state) (nowMs : R) : R :=
  if truthy (lastTick s)
  then Rmin ((nowMs - lastTick s) / 1000) 0.1
  else 1 / 60.

(** Lines 115-131. *)
Definition loop (e : env) (nowMs : R) (s : state) : state :=
  let s :=
    if initialized s then
      let s := updateTargetFromScroll e s in
      let dt := tick_dt s nowMs in
      let s := set_lastTick nowMs s in
      let alpha := 1 - exp (- SMOOTH_RESPONSE * dt) in
      let s :=
        set_smoothTime (smoothTime s + (targetTime s - smoothTime s) * alpha) s in
      let s := setReadyState (Rgeb (smoothTime s) (FREEZE_TIME - SCROLL_SLOP)) s in
      let s := seekToTime e (smoothTime s) nowMs s in
      drawFrame e s
    else s in
  set_rafScheduled true s.

(** Lines 178-188. *)
Definition setupVideoFrameCallback (e : env) (s : state) : state :=
  if negb (rvfcSupported e) || hasRVFC s then s else set_hasRVFC true s.

(** [init], lines 133-159, up to and including the call of [video.play()]. *)
Definition init_start (e : env) (s : state) : state :=
  if skipIntro e then set_initialized true (setReadyState true s)
  else set_awaitingPlay true (emit PlayProbe (resizeCanvas e s)).

(** [init] from line 150 on, resumed when the promise of [video.play()]
    settles; it goes on the same way whether the promise is fulfilled or
    rejected.  [rafId] is null here, nothing is cancelled. *)
Definition init_resume (e : env) (s : state) : state :=
  let s := set_initialized true s in
  let s := updateTargetFromScroll e s in
  let s := set_smoothTime (targetTime s) s in
  let s := seekToTime e (smoothTime s) (perfNow e) s in
  let s := set_lastTick 0 s in
  let s := set_rafScheduled true s in
  setupVideoFrameCallback e s.

(** ** Events *)

Inductive event :=
  | LoadedData                  (* "loadeddata": init *)
  | PlaySettled                 (* the promise of video.play() settles *)
  | AnimationFrame (nowMs : R)  (* the display refresh calls loop *)
  | Resize                      (* "resize" *)
  | Seeked                      (* "seeked": drawFrame *)
  | TimeUpdate                  (* "timeupdate": drawFrame *)
  | VideoFrame.                 (* requestVideoFrameCallback calls onFrame *)

(** One notification.  A notification nobody listens to leaves the state
    as it is. *)
Definition step (s : state) (x : event * env) : state :=
  let (ev, e) := x in
  match ev with
  | LoadedData =>
      if loadedListener s then init_start e (set_loadedListener false s) else s
  | PlaySettled =>
      if awaitingPlay s then init_resume e (set_awaitingPlay false s) else s
  | AnimationFrame nowMs =>
      if rafScheduled s then loop e nowMs s else s
  | Resize => updateTargetFromScroll e (resizeCanvas e s)
  | Seeked => drawFrame e s
  | TimeUpdate => drawFrame e s
  | VideoFrame => if hasRVFC s then drawFrame e s else s
  end.

Definition run (s : state) (xs : list (event * env)) : state :=
  fold_left step xs s.

(** The playback positions written to the media, oldest first, each with
    the timestamp of the call that wrote it. *)
Fixpoint seeks_of (t : list effect) : list (R * R) :=
  match t with
  | [] => []
  | SeekWrite nowMs nextTime :: t => seeks_of t ++ [(nowMs, nextTime)]
  | _ :: t => seeks_of t
  end.

Fixpoint redraws_of (t : list effect) : nat :=
  match t with
  | [] => O
  | Redraw _ :: t => S (redraws_of t)
  | _ :: t => redraws_of t
  end.

(** A run of calls of [seekToTime], each with the time asked for, its
    timestamp and what the media answers at that moment. *)
Definition seek_call : Type := (R * R * env)%type.

Definition run_seeks (s : state) (cs : list seek_call) : state :=
  fold_left (fun s c => let '(time, nowMs, e) := c in seekToTime e time nowMs s) cs s.

(** ** Notions used in the statements *)

(** Two logged seeks are at least [minSeekInterval] apart. *)
Definition spaced (a b : R * R) : Prop := minSeekInterval <= fst b - fst a.

(** The bookkeeping of the throttle agrees with the log: no logged seek is
    later than [lastSeekAt], and the logged seeks are pairwise spaced. *)
Definition seek_inv (s : state) : Prop :=
  Forall (fun w => fst w <= lastSeekAt s) (seeks_of (trace s)) /\
  ForallOrdPairs spaced (seeks_of (trace s)).

Definition call_now (c : seek_call) : R := snd (fst c).

(** The target that a step computes from the scroll position. *)
Definition target_of (e : env) : R :=
  clamp (getPageProgress e * FREEZE_TIME) 0 FREEZE_TIME.

(** The fraction of the gap that a step closes. *)
Definition alpha_of (dt : R) : R := 1 - exp (- SMOOTH_RESPONSE * dt).

(** Target and smoothed time are playback positions of the intro. *)
Definition time_inv (s : state) : Prop :=
  0 <= targetTime s <= FREEZE_TIME /\ 0 <= smoothTime s <= FREEZE_TIME.

(** The invariant that one notification preserves: the two times are in
    range and the last tick is not ahead of the clock [t]. *)
Definition tick_inv (t : R) (s : state) : Prop :=
  time_inv s /\ (lastTick s = 0 \/ lastTick s <= t).

(** The display refresh hands [loop] timestamps that never go back:
    from [t] on, the timestamps of the animation frames in [xs] are
    non-decreasing. *)
Fixpoint frames_monotone (t : R) (xs : list (event * env)) : Prop :=
  match xs with
  | [] => True
  | (AnimationFrame nowMs, _) :: xs => t <= nowMs /\ frames_monotone nowMs xs
  | _ :: xs => frames_monotone t xs
  end.

(** Where the synchronizer is in its start-up: the media is loading
    until "loadeddata" is notified, the autoplay probe lasts while
    [init] waits for [video.play()], the synchronizer runs once the loop
    is scheduled; [Idle] is what is left when [init] has returned
    without scheduling anything. *)
Inductive phase := Loading | AutoplayProbe | Running | Idle.

Definition phase_of (s : state) : phase :=
  if rafScheduled s then Running
  else if awaitingPlay s then AutoplayProbe
  else if loadedListener s then Loading
  else Idle.

(** The notifications whose listeners call [drawFrame] whatever the
    state: "resize", "seeked" and "timeupdate". *)
Fixpoint redraw_notifications (xs : list (event * env)) : nat :=
  match xs with
  | [] => O
  | (Resize, _) :: xs => S (redraw_notifications xs)
  | (Seeked, _) :: xs => S (redraw_notifications xs)
  | (TimeUpdate, _) :: xs => S (redraw_notifications xs)
  | _ :: xs => redraw_notifications xs
  end.

(** The state [init] leaves behind when the intro is skipped: ready,
    nothing scheduled, nothing awaited, no listener of the start-up
    left. *)
Definition skipped (s : state) : Prop :=
  siteReady s = true /\ initialized s = true /\
  rafScheduled s = false /\ awaitingPlay s = false /\
  loadedListener s = false /\ hasRVFC s = false.

Definition only_redraws (t : list effect) : Prop :=
  forall x, In x t -> exists painted, x = Redraw painted.

(** ** Sample inputs *)

(** A page whose intro is [oh] high in a viewport [ih] high, scrolled so
    that the top of the intro is at [top]; the media has decoded a
    frame, is at position 0 and reports no finite duration. *)
Definition env_at (top oh ih : R) : env :=
  mkEnv top oh ih None 0 true 0 false false.

(** The synchronizer while running, last seek written at [at_] for
    position [req]. *)
Definition running (target smooth tick at_ req : R) : state :=
  mkState true target smooth true tick at_ req false false false false [].

(** The media at position [cur], nothing else of interest. *)
Definition env_media (cur : R) : env :=
  mkEnv 0 0 0 None cur true 0 false false.

(** The same page opened with [?skipIntro=1]. *)
Definition env_skip (top oh ih : R) : env :=
  mkEnv top oh ih None 0 true 0 true true.

End Recati.

Module Dami.

(** ** moonPhase (app.js, lines 12-20) *)

(** The [%] of JavaScript on finite numbers with a non-zero divisor:
    the quotient is truncated toward zero, so the remainder has the sign
    of the dividend. *)
Definition Rtrunc (x : R) : Z :=
  if Rle_dec 0 x then Int_part x else (- Int_part (- x))%Z.

Definition js_rem (x y : R) : R := x - y * IZR (Rtrunc (x / y)).

(** [Date.UTC(year, month, day, hours, minutes, seconds)] for a month
    index in 0..11 and fields in range: days since the epoch by the
    Gregorian calendar, then milliseconds. *)
Definition days_from_civil (y m d : Z) : Z :=
  let y' := if (m <=? 1)%Z then (y - 1)%Z else y in
  let era := (y' / 400)%Z in
  let yoe := (y' - era * 400)%Z in
  let mp := if (m <=? 1)%Z then (m + 10)%Z else (m - 2)%Z in
  let doy := ((153 * mp + 2) / 5 + d - 1)%Z in
  let doe := (yoe * 365 + yoe / 4 - yoe / 100 + doy)%Z in
  (era * 146097 + doe - 719468)%Z.

Definition Date_UTC (year month day hours minutes seconds : Z) : Z :=
  (((days_from_civil year month day * 24 + hours) * 60 + minutes) * 60
   + seconds)%Z * 1000.

Definition synodicMonth : R := 29.530588853.
Definition knownNewMoon : Z := Date_UTC 2024 0 11 11 57 0.

Record moon := mkMoon { phase : R; illumination : R }.

(** [date] is the time value of the argument, [date.getTime()], in
    milliseconds since the epoch. *)
Definition moonPhase (date : Z) : moon :=
  let daysSince := IZR (date - knownNewMoon) / 1000 / 60 / 60 / 24 in
  let phase := js_rem (js_rem daysSince synodicMonth + synodicMonth) synodicMonth in
  let illumination := (1 - cos ((2 * PI * phase) / synodicMonth)) / 2 in
  mkMoon phase illumination.

End Dami.

Module Doubles.

(** ** Line 124 of script.js on IEEE-754 doubles *)

(** [smoothTime += (targetTime - smoothTime) * alpha] as the source
    computes it, on binary64 with round to nearest even; the weight
    [alpha] of line 123 is taken as given, [Math.exp] having no
    counterpart here.  Used only to record where the doubles part from
    the real numbers of [Recati.loop]. *)
Definition smooth_update_f64 (smoothTime targetTime alpha : float) : float :=
  (smoothTime + (targetTime - smoothTime) * alpha)%float.

End Doubles.

Module Runs.
Import Recati.

(** ** Runs of animation frames *)

(** The notifications of a run of animation frames, each with its
    timestamp and what the page answers at that moment. *)
Definition frames_at (fs : list (R * env)) : list (event * env) :=
  map (fun f => (AnimationFrame (fst f), snd f)) fs.

(** From the tick [t0] on, every frame of [fs] has a non-zero timestamp
    and comes at most 100 ms after the one before: line 119 then takes
    the elapsed time itself for [dt]. *)
Fixpoint steady (t0 : R) (fs : list (R * env)) : Prop :=
  match fs with
  | [] => True
  | f :: fs => fst f <> 0 /\ fst f - t0 <= 100 /\ steady (fst f) fs
  end.

Fixpoint last_stamp (t0 : R) (fs : list (R * env)) : R :=
  match fs with
  | [] => t0
  | f :: fs => last_stamp (fst f) fs
  end.

(** How often the autoplay probe was attempted. *)
Fixpoint probes_of (t : list effect) : nat :=
  match t with
  | [] => O
  | PlayProbe :: t => S (probes_of t)
  | _ :: t => probes_of t
  end.

End Runs.

Module Surface.

(** ** What drawFrame paints (script.js, lines 47-78) and the size of
    the canvas (lines 80-89) *)

Definition VIDEO_SCALE : R := 0.86.
Definition BLACK_BAND_START : R := 0.74.

(** The calls on the 2D context, colours left out. *)
Inductive paint :=
  | FillGradient (x y w h : R)   (* ctx.fillRect with the vertical gradient *)
  | DrawImage (dx dy sw sh : R)  (* ctx.drawImage(video, dx, dy, sw, sh) *)
  | FillBlack (x y w h : R).     (* ctx.fillRect with "#000" *)

(** [cw], [ch] are [vw], [vh]; [iw], [ih] are [video.videoWidth] and
    [video.videoHeight]; the result lists the calls in order. *)
Definition drawFrame_paint (cw ch iw ih : R) (readyState : Z) : list paint :=
  if negb (truthy iw) || negb (truthy ih) then [] else
  if (readyState <? 2)%Z then [] else
  let scale := Rmin (cw / iw) (ch / ih) * VIDEO_SCALE in
  let sw := iw * scale in
  let sh := ih * scale in
  let dx := (cw - sw) / 2 in
  let dy := (ch - sh) / 2 in
  let bandY := dy + sh * BLACK_BAND_START in
  FillGradient 0 0 cw ch
  :: DrawImage dx dy sw sh
  :: (if Rltb bandY ch
      then [FillBlack 0 (Rmax 0 bandY) cw (ch - Rmax 0 bandY)]
      else []).



End Surface.

Module Gate.

(** ** The parallax of the gate (script.js, lines 207-234) *)

Record offsets := mkOffsets { px : R; py : R; tx : R; ty : R }.

Definition rest : offsets := mkOffsets 0 0 0 0.

(** The bounding rectangle of the gate. *)
Record box := mkBox { left : R; top : R; width : R; height : R }.

(** "pointermove", lines 215-219. *)
Definition pointermove (clientX clientY : R) (r : box) (g : offsets) : offsets :=
  mkOffsets (px g) (py g)
    (((clientX - left r) / width r - 0.5) * 14)
    (((clientY - top r) / height r - 0.5) * 10).

(** "pointerleave", lines 221-224. *)
Definition pointerleave (g : offsets) : offsets :=
  mkOffsets (px g) (py g) 0 0.

(** [animateGate], lines 226-231: the offsets written to the transform
    of the inner element are the new [px], [py]. *)
Definition animateGate (g : offsets) : offsets :=
  mkOffsets (px g + (tx g - px g) * 0.08) (py g + (ty g - py g) * 0.08)
    (tx g) (ty g).

Inductive event :=
  | PointerMove (clientX clientY : R) (r : box)
  | PointerLeave
  | Frame.

Definition step (g : offsets) (ev : event) : offsets :=
  match ev with
  | PointerMove x y r => pointermove x y r g
  | PointerLeave => pointerleave g
  | Frame => animateGate g
  end.

Definition run (g : offsets) (evs : list event) : offsets :=
  fold_left step evs g.

(** The pointer is over the gate, whose rectangle is not empty. *)
Definition inside (ev : event) : Prop :=
  match ev with
  | PointerMove x y r =>
      0 < width r /\ 0 < height r /\
      left r <= x <= left r + width r /\ top r <= y <= top r + height r
  | _ => True
  end.

Definition within (g : offsets) : Prop :=
  Rabs (px g) <= 7 /\ Rabs (py g) <= 5 /\ Rabs (tx g) <= 7 /\ Rabs (ty g) <= 5.

End Gate.

Module Reveal.

(** ** Reveal on scroll (script.js, lines 192-205) *)

(** Elements are numbered; [shown] are the elements whose class list
    has "show", [observed] the targets of the observer. *)
Record page := mkPage { shown : list nat; observed : list nat }.

(** An IntersectionObserverEntry: target and isIntersecting. *)
Definition entry : Type := (nat * bool)%type.

(** [classList.add("show")]: a class list is a set. *)
Definition add_show (t : nat) (l : list nat) : list nat :=
  if in_dec Nat.eq_dec t l then l else t :: l.

(** The body of the [forEach] of the callback, lines 196-200. *)
Definition on_entry (p : page) (en : entry) : page :=
  if negb (snd en) then p
  else mkPage (add_show (fst en) (shown p))
         (remove Nat.eq_dec (fst en) (observed p)).

Definition callback (p : page) (entries : list entry) : page :=
  fold_left on_entry entries p.

(** Line 204: every reveal item is observed. *)
Definition observe_all (items : list nat) (already_shown : list nat) : page :=
  mkPage already_shown items.

End Reveal.

Module MoonView.
Import Dami.

(** ** phaseName and renderMoon (app.js, lines 22-59) *)

Local Open Scope string_scope.

Definition phaseName (phase : R) : string :=
  let pct := (phase / 29.530588853)%R in
  if Rltb pct 0.03 then "Lua Nova"
  else if Rltb pct 0.22 then "Crescente"
  else if Rltb pct 0.28 then "Quarto Crescente"
  else if Rltb pct 0.47 then "Gibosa Crescente"
  else if Rltb pct 0.53 then "Lua Cheia"
  else if Rltb pct 0.72 then "Gibosa Minguante"
  else if Rltb pct 0.78 then "Quarto Minguante"
  else if Rltb pct 0.97 then "Minguante"
  else "Lua Nova".

(** [Math.round]: the nearest integer, halves toward plus infinity. *)
Definition js_round (x : R) : Z := Int_part (x + 0.5).

(** What [renderMoon] computes for the page at the time value [now]:
    the label, the percentage and the width of the shadow.  The writes
    to the elements, each guarded by the element being there, and the
    formatted date are left out. *)
Record view := mkView {
  phaseLabel : string;
  illuminationPct : Z;
  shadow : Z
}.

Definition renderMoon (now : Z) : view :=
  let m := moonPhase now in
  mkView (phaseName (phase m))
    (js_round (illumination m * 100))
    (js_round ((1 - illumination m) * 70)).

End MoonView.

(** * Properties *)

Import Recati Doubles.

(** ** Comparisons *)

Lemma Rltb_true x y : Rltb x y = true <-> x < y.
Proof. unfold Rltb; destruct (Rlt_dec x y); split; intros; try easy. Qed.

Lemma Rltb_false x y : Rltb x y = false <-> y <= x.
Proof.
  unfold Rltb; destruct (Rlt_dec x y); split; intros; try easy; lra.
Qed.

Lemma Rleb_true x y : Rleb x y = true <-> x <= y.
Proof. unfold Rleb; destruct (Rle_dec x y); split; intros; try easy. Qed.

Lemma Rleb_false x y : Rleb x y = false <-> y < x.
Proof.
  unfold Rleb; destruct (Rle_dec x y); split; intros; try easy; lra.
Qed.

Lemma truthy_false x : truthy x = false <-> x = 0.
Proof. unfold truthy; destruct (Req_dec_T x 0); split; intros; easy. Qed.

Lemma truthy_true x : truthy x = true <-> x <> 0.
Proof. unfold truthy; destruct (Req_dec_T x 0); split; intros; easy. Qed.

(** Decide the comparisons met in a goal or hypothesis and leave linear
    real arithmetic. *)
Ltac cmp_cases :=
  repeat match goal with
  | |- context [Rlt_dec ?a ?b] => destruct (Rlt_dec a b)
  | |- context [Rle_dec ?a ?b] => destruct (Rle_dec a b)
  | |- context [Req_dec_T ?a ?b] => destruct (Req_dec_T a b)
  | H : context [Rlt_dec ?a ?b] |- _ => destruct (Rlt_dec a b)
  | H : context [Rle_dec ?a ?b] |- _ => destruct (Rle_dec a b)
  | H : context [Req_dec_T ?a ?b] |- _ => destruct (Req_dec_T a b)
  end.

Ltac minmax_cases :=
  unfold Rmax, Rmin, Rabs in *;
  repeat match goal with
  | |- context [Rle_dec ?a ?b] => destruct (Rle_dec a b)
  | |- context [Rcase_abs ?a] => destruct (Rcase_abs a)
  | H : context [Rle_dec ?a ?b] |- _ => destruct (Rle_dec a b)
  | H : context [Rcase_abs ?a] |- _ => destruct (Rcase_abs a)
  end.


(** On concrete numbers: decide each comparison, innermost first, and
    drop the branch that linear arithmetic refutes. *)
Ltac plain t :=
  lazymatch t with
  | context [Rle_dec _ _] => fail
  | context [Rlt_dec _ _] => fail
  | context [Req_dec_T _ _] => fail
  | context [Rcase_abs _] => fail
  | _ => idtac
  end.

Ltac decide_cmp :=
  unfold Rgeb, Rgtb, truthy in *; unfold Rltb, Rleb, Rmax, Rmin, Rabs in *;
  repeat match goal with
  | |- context [Rlt_dec ?a ?b] =>
      plain a; plain b; destruct (Rlt_dec a b); try (exfalso; lra)
  | |- context [Rle_dec ?a ?b] =>
      plain a; plain b; destruct (Rle_dec a b); try (exfalso; lra)
  | |- context [Req_dec_T ?a ?b] =>
      plain a; plain b; destruct (Req_dec_T a b); try (exfalso; lra)
  | |- context [Rcase_abs ?a] =>
      plain a; destruct (Rcase_abs a); try (exfalso; lra)
  end.

(** ** clamp *)

Lemma clamp_bounds n a b : a <= b -> a <= clamp n a b <= b.
Proof. unfold clamp; intros; minmax_cases; lra. Qed.

Lemma clamp_lower n a b : a <= clamp n a b.
Proof. unfold clamp; minmax_cases; lra. Qed.

Lemma clamp_monotone n m a b : n <= m -> clamp n a b <= clamp m a b.
Proof. unfold clamp; intros; minmax_cases; lra. Qed.

Lemma clamp_id n a b : a <= n <= b -> clamp n a b = n.
Proof. unfold clamp; intros; minmax_cases; lra. Qed.

Lemma clamp_below n a b : a <= b -> n <= a -> clamp n a b = a.
Proof. unfold clamp; intros; minmax_cases; lra. Qed.

Lemma clamp_above n a b : a <= b -> b <= n -> clamp n a b = b.
Proof. unfold clamp; intros; minmax_cases; lra. Qed.

(** ** getPageProgress *)

Section PageProgress.

Variable e : env.
Let total := offsetHeight e - innerHeight e.

Lemma getPageProgress_pos :
  0 < total ->
  getPageProgress e = clamp (- rect_top e) 0 total / total.
Proof.
  intros Ht. unfold getPageProgress. fold total.
  assert (H : Rgtb total 0 = true) by (apply Rltb_true; exact Ht).
  rewrite H. reflexivity.
Qed.

Lemma getPageProgress_nonpos :
  total <= 0 -> getPageProgress e = 0.
Proof.
  intros Ht. unfold getPageProgress. fold total.
  assert (H : Rgtb total 0 = false) by (apply Rltb_false; exact Ht).
  rewrite H. reflexivity.
Qed.

Lemma getPageProgress_range : 0 <= getPageProgress e <= 1.
Proof.
  destruct (Rlt_dec 0 total) as [Ht|Ht].
  - rewrite getPageProgress_pos by exact Ht.
    destruct (clamp_bounds (- rect_top e) 0 total) as [H0 H1]; [lra|].
    assert (Hi : 0 < / total) by (apply Rinv_0_lt_compat; exact Ht).
    split.
    + unfold Rdiv. apply Rmult_le_pos; lra.
    + apply (Rmult_le_reg_r total); [exact Ht|].
      unfold Rdiv. rewrite Rmult_assoc, Rinv_l by lra. lra.
  - rewrite getPageProgress_nonpos by lra. lra.
Qed.

(** The division is only reached with a non-zero divisor: the checked
    version never fails and agrees with [getPageProgress]. *)
Lemma getPageProgress_checked_finite :
  getPageProgress_checked e = Some (getPageProgress e).
Proof.
  unfold getPageProgress_checked, getPageProgress, js_div, Rgtb, Rltb.
  fold total. cmp_cases; try reflexivity. lra.
Qed.

End PageProgress.

(** The monotonicity needs no positive span. *)
Lemma getPageProgress_monotone (e1 e2 : env) :
  offsetHeight e1 = offsetHeight e2 ->
  innerHeight e1 = innerHeight e2 ->
  - rect_top e1 <= - rect_top e2 ->
  getPageProgress e1 <= getPageProgress e2.
Proof.
  intros Ho Hi Hle.
  destruct (Rlt_dec 0 (offsetHeight e1 - innerHeight e1)) as [Ht|Ht].
  - assert (Ht2 : 0 < offsetHeight e2 - innerHeight e2)
      by (rewrite <- Ho, <- Hi; exact Ht).
    rewrite (getPageProgress_pos e1 Ht), (getPageProgress_pos e2 Ht2).
    rewrite <- Ho, <- Hi. unfold Rdiv.
    apply Rmult_le_compat_r.
    + apply Rlt_le, Rinv_0_lt_compat; exact Ht.
    + apply clamp_monotone; exact Hle.
  - rewrite (getPageProgress_nonpos e1) by lra.
    apply getPageProgress_range.
Qed.

(** C6.  Over a scroll region with a positive scrollable span,
    getPageProgress lies in [0,1] and is monotonic non-decreasing in the
    scroll offset (the offset is [- rect_top]); for an offset before the
    span it is 0 and for an offset past the span it is 1. *)
Theorem getPageProgress_monotone_clamped (e1 e2 : env) :
  offsetHeight e1 = offsetHeight e2 ->
  innerHeight e1 = innerHeight e2 ->
  0 < offsetHeight e1 - innerHeight e1 ->
  - rect_top e1 <= - rect_top e2 ->
  0 <= getPageProgress e1 <= 1 /\
  getPageProgress e1 <= getPageProgress e2 /\
  (- rect_top e1 <= 0 -> getPageProgress e1 = 0) /\
  (offsetHeight e2 - innerHeight e2 <= - rect_top e2 -> getPageProgress e2 = 1).
Proof.
  intros Ho Hi Ht Hle.
  assert (Ht2 : 0 < offsetHeight e2 - innerHeight e2) by (rewrite <- Ho, <- Hi; exact Ht).
  split; [apply getPageProgress_range|].
  split; [apply getPageProgress_monotone; assumption|].
  rewrite (getPageProgress_pos e1 Ht), (getPageProgress_pos e2 Ht2).
  rewrite <- Ho, <- Hi.
  set (total := offsetHeight e1 - innerHeight e1) in *.
  assert (Hinv : 0 < / total) by (apply Rinv_0_lt_compat; exact Ht).
  split.
  - intros Hb. rewrite clamp_below by lra. unfold Rdiv. lra.
  - intros Ha. rewrite clamp_above by lra. unfold Rdiv.
    apply Rinv_r. lra.
Qed.

Lemma getPageProgress_monotone_clamped_witness :
  0 <= getPageProgress (env_at 0 3000 1000) <= 1 /\
  getPageProgress (env_at 0 3000 1000)
    <= getPageProgress (env_at (-2000) 3000 1000) /\
  (- rect_top (env_at 0 3000 1000) <= 0 ->
   getPageProgress (env_at 0 3000 1000) = 0) /\
  (offsetHeight (env_at (-2000) 3000 1000) - innerHeight (env_at (-2000) 3000 1000)
     <= - rect_top (env_at (-2000) 3000 1000) ->
   getPageProgress (env_at (-2000) 3000 1000) = 1).
Proof.
  apply (getPageProgress_monotone_clamped
           (env_at 0 3000 1000) (env_at (-2000) 3000 1000));
    simpl; lra.
Defined.

(** C7.  When the scrollable span (container height minus viewport
    height) is zero or negative, getPageProgress is exactly 0, and it
    gets there without dividing: the checked version answers 0 too. *)
Theorem getPageProgress_span_nonpos (e : env) :
  offsetHeight e - innerHeight e <= 0 ->
  getPageProgress e = 0 /\ getPageProgress_checked e = Some 0.
Proof.
  intros Ht. split.
  - apply getPageProgress_nonpos; exact Ht.
  - rewrite getPageProgress_checked_finite.
    rewrite getPageProgress_nonpos by exact Ht. reflexivity.
Qed.

Lemma getPageProgress_span_nonpos_witness :
  getPageProgress (env_at (-40) 600 900) = 0 /\
  getPageProgress_checked (env_at (-40) 600 900) = Some 0.
Proof.
  apply (getPageProgress_span_nonpos (env_at (-40) 600 900)); simpl; lra.
Defined.

(** ** seekToTime *)

Lemma half_step : MIN_TIME_STEP * 0.5 = 1 / 90.
Proof. unfold MIN_TIME_STEP. lra. Qed.

Lemma minSeekInterval_pos : 0 < minSeekInterval.
Proof. unfold minSeekInterval, SEEK_FPS. lra. Qed.

(** [seekToTime] either gets through its four tests and does its three
    assignments, or returns the state it was given. *)
Lemma seekToTime_cases e time nowMs s :
  seekToTime e time nowMs s =
  if seek_accepts e time nowMs s
  then emit (SeekWrite nowMs (nextTime e time))
         (set_lastSeek nowMs (nextTime e time) s)
  else s.
Proof.
  unfold seekToTime, seek_accepts.
  destruct (initialized s); simpl; [|reflexivity].
  destruct (Rltb _ _); simpl; [reflexivity|].
  destruct (Rleb _ _); simpl; [reflexivity|].
  destruct (Rleb _ _); reflexivity.
Qed.

Lemma seek_accepts_elapsed e time nowMs s :
  seek_accepts e time nowMs s = true ->
  minSeekInterval <= nowMs - lastSeekAt s.
Proof.
  unfold seek_accepts. intros H.
  repeat (apply andb_prop in H; destruct H as [H ?]).
  apply Rltb_false. apply negb_true_iff. assumption.
Qed.

Lemma seek_throttled e time nowMs s :
  nowMs - lastSeekAt s < minSeekInterval ->
  seekToTime e time nowMs s = s.
Proof.
  intros H. unfold seekToTime.
  destruct (negb (initialized s)); [reflexivity|].
  apply Rltb_true in H. rewrite H. reflexivity.
Qed.

(** C9.  A call of seekToTime is all or nothing.  Either it passes every
    test: then the last-seek timestamp becomes the timestamp of the call,
    the last requested time becomes the clamped time, the write of the
    media position is attempted, and nothing else changes.  Or it is
    suppressed and returns the very state it was given: last-seek
    timestamp, last requested time and smoothed time are what they were,
    nothing is written, the throttle window is not reset. *)
Theorem seekToTime_atomic (e : env) (time nowMs : R) (s : state) :
  let s' := seekToTime e time nowMs s in
  (seek_accepts e time nowMs s = true /\
   lastSeekAt s' = nowMs /\
   lastRequestedTime s' = nextTime e time /\
   trace s' = SeekWrite nowMs (nextTime e time) :: trace s /\
   smoothTime s' = smoothTime s /\ targetTime s' = targetTime s /\
   lastTick s' = lastTick s /\ initialized s' = initialized s /\
   siteReady s' = siteReady s)
  \/
  (seek_accepts e time nowMs s = false /\ s' = s).
Proof.
  intros s'. subst s'. rewrite seekToTime_cases.
  destruct (seek_accepts e time nowMs s).
  - left. simpl. repeat split; reflexivity.
  - right. split; reflexivity.
Qed.

Lemma nextTime_in_range e time :
  0 <= time <= FREEZE_TIME -> duration e = None -> nextTime e time = time.
Proof.
  unfold nextTime, safeDuration, clamp, FREEZE_TIME. intros H ->.
  minmax_cases; lra.
Qed.

(** C5, as stated, fails: the last requested time is 1, the call asks
    for 1 + 1/90, a whole second after the last accepted seek and with
    the media far away at 5.  The difference is exactly half the minimum
    time step, neither the throttle nor the position test applies, and
    the call is suppressed all the same. *)
Lemma seek_exact_half_step_suppressed :
  let s := running 0 0 0 0 1 in
  let e := env_media 5 in
  Rabs (lastRequestedTime s - nextTime e (1 + 1 / 90)) = MIN_TIME_STEP * 0.5 /\
  minSeekInterval <= 1000 - lastSeekAt s /\
  MIN_TIME_STEP * 0.5 < Rabs (currentTime e - nextTime e (1 + 1 / 90)) /\
  seekToTime e (1 + 1 / 90) 1000 s = s.
Proof.
  intros s e.
  assert (Hn : nextTime e (1 + 1 / 90) = 1 + 1 / 90)
    by (apply nextTime_in_range; [unfold FREEZE_TIME; lra | reflexivity]).
  rewrite Hn. simpl.
  assert (Ha : Rabs (1 - (1 + 1 / 90)) = 1 / 90)
    by (unfold Rabs; destruct (Rcase_abs _); lra).
  assert (Hb : Rabs (5 - (1 + 1 / 90)) = 4 - 1 / 90)
    by (unfold Rabs; destruct (Rcase_abs _); lra).
  rewrite Ha, Hb, half_step.
  repeat split; try (unfold minSeekInterval, SEEK_FPS; lra).
  unfold seekToTime. simpl. rewrite Hn. simpl.
  replace (Rltb (1000 - 0) minSeekInterval) with false
    by (symmetry; apply Rltb_false; unfold minSeekInterval, SEEK_FPS; lra).
  rewrite Ha, half_step.
  replace (Rleb (1 / 90) (1 / 90)) with true
    by (symmetry; apply Rleb_true; lra).
  reflexivity.
Qed.

(** C5, amended.  A call whose clamped time is within half the minimum
    time step of the last requested time, the bound 1/90 included, is
    suppressed whatever time has gone by since the last accepted seek:
    the state is returned as it was and nothing is written. *)
Theorem seek_dead_zone (e : env) (time nowMs : R) (s : state) :
  Rabs (lastRequestedTime s - nextTime e time) <= 1 / 90 ->
  seekToTime e time nowMs s = s /\ trace (seekToTime e time nowMs s) = trace s.
Proof.
  intros H. rewrite <- half_step in H. apply Rleb_true in H.
  assert (E : seekToTime e time nowMs s = s).
  { unfold seekToTime.
    destruct (negb (initialized s)); [reflexivity|].
    destruct (Rltb _ _); [reflexivity|].
    rewrite H. reflexivity. }
  rewrite E. split; reflexivity.
Qed.

Lemma seek_dead_zone_witness :
  seekToTime (env_media 5) (1 + 1 / 200) 1000 (running 0 0 0 0 1)
    = running 0 0 0 0 1 /\
  trace (seekToTime (env_media 5) (1 + 1 / 200) 1000 (running 0 0 0 0 1))
    = trace (running 0 0 0 0 1).
Proof.
  apply (seek_dead_zone (env_media 5) (1 + 1 / 200) 1000 (running 0 0 0 0 1)).
  rewrite nextTime_in_range;
    [ simpl; unfold Rabs; destruct (Rcase_abs _); lra
    | unfold FREEZE_TIME; lra
    | reflexivity ].
Defined.

(** Past the dead zone, with the throttle interval gone by and the media
    elsewhere, an initialized synchronizer does write. *)
Lemma seek_outside_dead_zone e time nowMs s :
  initialized s = true ->
  minSeekInterval <= nowMs - lastSeekAt s ->
  1 / 90 < Rabs (lastRequestedTime s - nextTime e time) ->
  1 / 90 < Rabs (currentTime e - nextTime e time) ->
  trace (seekToTime e time nowMs s)
    = SeekWrite nowMs (nextTime e time) :: trace s.
Proof.
  intros Hi Ht Hd Hp. rewrite <- half_step in Hd, Hp.
  rewrite seekToTime_cases. unfold seek_accepts. rewrite Hi.
  apply Rltb_false in Ht. apply Rleb_false in Hd, Hp.
  rewrite Ht, Hd, Hp. reflexivity.
Qed.

(** With the last requested time inside the range the media allows now,
    the time asked for may be compared before it is clamped. *)
Lemma seek_dead_zone_raw e time nowMs s :
  0 <= lastRequestedTime s <= Rmin FREEZE_TIME (safeDuration e) ->
  Rabs (lastRequestedTime s - time) <= 1 / 90 ->
  seekToTime e time nowMs s = s.
Proof.
  intros Hr Hd.
  assert (H : Rabs (lastRequestedTime s - nextTime e time) <= 1 / 90).
  { unfold nextTime, clamp.
    set (hi := Rmin FREEZE_TIME (safeDuration e)) in *.
    set (l := lastRequestedTime s) in *.
    revert Hd. minmax_cases; intros; lra. }
  rewrite <- half_step in H. apply Rleb_true in H.
  unfold seekToTime.
  destruct (negb (initialized s)); [reflexivity|].
  destruct (Rltb _ _); [reflexivity|].
  rewrite H. reflexivity.
Qed.

(** ** The throttle *)

Lemma ForallOrdPairs_snoc {A} (P : A -> A -> Prop) (l : list A) (x : A) :
  ForallOrdPairs P l -> Forall (fun a => P a x) l ->
  ForallOrdPairs P (l ++ [x]).
Proof.
  induction 1 as [|a l Ha Hl IH]; intros Hx; simpl.
  - constructor; constructor.
  - inversion Hx; subst. constructor.
    + apply Forall_app; split; [assumption|]. constructor; [assumption|constructor].
    + apply IH; assumption.
Qed.

Lemma seek_inv_seekToTime e time nowMs s :
  seek_inv s -> seek_inv (seekToTime e time nowMs s).
Proof.
  intros [Hle Hsp]. rewrite seekToTime_cases.
  destruct (seek_accepts e time nowMs s) eqn:Hacc; [|split; assumption].
  apply seek_accepts_elapsed in Hacc.
  pose proof minSeekInterval_pos as Hpos.
  split; simpl.
  - apply Forall_app; split.
    + eapply Forall_impl; [|exact Hle]. simpl; intros; lra.
    + constructor; [simpl; lra|constructor].
  - apply ForallOrdPairs_snoc; [assumption|].
    eapply Forall_impl; [|exact Hle].
    unfold spaced; simpl; intros; lra.
Qed.

Lemma seek_inv_run_seeks cs : forall s, seek_inv s -> seek_inv (run_seeks s cs).
Proof.
  induction cs as [|[[time nowMs] e] cs IH]; intros s Hs; simpl.
  - exact Hs.
  - apply IH. apply seek_inv_seekToTime. exact Hs.
Qed.

(** Calls that all come less than the throttle interval after the last
    accepted seek change nothing. *)
Lemma run_seeks_throttled cs : forall s,
  Forall (fun c => call_now c - lastSeekAt s < minSeekInterval) cs ->
  run_seeks s cs = s.
Proof.
  induction cs as [|[[time nowMs] e] cs IH]; intros s Hall; simpl.
  - reflexivity.
  - inversion Hall as [|c cs' Hc Hcs]; subst. unfold call_now in Hc; simpl in Hc.
    rewrite seek_throttled by exact Hc. apply IH. exact Hcs.
Qed.

Lemma run_seeks_app s cs ds :
  run_seeks s (cs ++ ds) = run_seeks (run_seeks s cs) ds.
Proof. unfold run_seeks. apply fold_left_app. Qed.

(** C4.  Take a call of seekToTime that is accepted, followed by any
    number of calls whose timestamps are each less than 1000/SEEK_FPS ms
    after it.  Only the first call is forwarded to the media: the
    followers leave the state and the log as the first call left them.
    And whatever calls come later, no two seeks in the log are less than
    1000/SEEK_FPS ms apart. *)
Theorem seek_throttle (s : state) (e0 : env) (time0 now0 : R)
    (burst later : list seek_call) :
  seek_inv s ->
  seek_accepts e0 time0 now0 s = true ->
  Forall (fun c => call_now c - now0 < 1000 / SEEK_FPS) burst ->
  run_seeks s ((time0, now0, e0) :: burst) = seekToTime e0 time0 now0 s /\
  seeks_of (trace (run_seeks s ((time0, now0, e0) :: burst)))
    = seeks_of (trace s) ++ [(now0, nextTime e0 time0)] /\
  ForallOrdPairs (fun a b => 1000 / SEEK_FPS <= fst b - fst a)
    (seeks_of (trace (run_seeks s ((time0, now0, e0) :: burst ++ later)))).
Proof.
  intros Hinv Hacc Hburst.
  assert (E : run_seeks s ((time0, now0, e0) :: burst) = seekToTime e0 time0 now0 s).
  { simpl. apply run_seeks_throttled.
    rewrite seekToTime_cases, Hacc. simpl. exact Hburst. }
  split; [exact E|]. split.
  - rewrite E, seekToTime_cases, Hacc. reflexivity.
  - apply (seek_inv_run_seeks ((time0, now0, e0) :: burst ++ later) s Hinv).
Qed.

Lemma seek_throttle_witness :
  let s := running 0 0 0 0 (-1) in
  let burst := [(3.5, 1005, env_media 0); (4, 1010, env_media 0)] in
  let later := [(5, 1100, env_media 0)] in
  run_seeks s ((3, 1000, env_media 0) :: burst)
    = seekToTime (env_media 0) 3 1000 s /\
  seeks_of (trace (run_seeks s ((3, 1000, env_media 0) :: burst)))
    = seeks_of (trace s) ++ [(1000, nextTime (env_media 0) 3)] /\
  ForallOrdPairs (fun a b => 1000 / SEEK_FPS <= fst b - fst a)
    (seeks_of (trace (run_seeks s ((3, 1000, env_media 0) :: burst ++ later)))).
Proof.
  intros s burst later.
  apply (seek_throttle s (env_media 0) 3 1000 burst later).
  - split; simpl; constructor.
  - unfold seek_accepts, nextTime, safeDuration, clamp, minSeekInterval,
      FREEZE_TIME, SEEK_FPS, MIN_TIME_STEP; simpl.
    decide_cmp; reflexivity.
  - unfold burst, call_now, SEEK_FPS; simpl.
    apply Forall_cons; [simpl; lra|].
    apply Forall_cons; [simpl; lra|]. apply Forall_nil.
Defined.

(** ** The throttle over whole runs *)

Lemma seek_inv_ext s s' :
  lastSeekAt s' = lastSeekAt s ->
  seeks_of (trace s') = seeks_of (trace s) ->
  seek_inv s -> seek_inv s'.
Proof. unfold seek_inv. intros -> ->. tauto. Qed.

Lemma seek_inv_loop e nowMs s : seek_inv s -> seek_inv (loop e nowMs s).
Proof.
  intros H. unfold loop. destruct (initialized s).
  - match goal with
    | |- seek_inv (set_rafScheduled true (drawFrame e ?x)) =>
        apply (seek_inv_ext x); [reflexivity|reflexivity|]
    end.
    apply seek_inv_seekToTime.
    revert H. apply seek_inv_ext; reflexivity.
  - revert H. apply seek_inv_ext; reflexivity.
Qed.

Lemma seek_inv_init_resume e s : seek_inv s -> seek_inv (init_resume e s).
Proof.
  intros H. unfold init_resume.
  match goal with
  | |- seek_inv (setupVideoFrameCallback e
                   (set_rafScheduled true (set_lastTick 0 ?x))) =>
      apply (seek_inv_ext x);
        [ unfold setupVideoFrameCallback;
          destruct (negb (rvfcSupported e) || _); reflexivity
        | unfold setupVideoFrameCallback;
          destruct (negb (rvfcSupported e) || _); reflexivity
        | ]
  end.
  apply seek_inv_seekToTime.
  revert H. apply seek_inv_ext; reflexivity.
Qed.

Lemma seek_inv_step s x : seek_inv s -> seek_inv (step s x).
Proof.
  intros H. destruct x as [ev e]. destruct ev; simpl.
  - destruct (loadedListener s); [|exact H].
    unfold init_start. destruct (skipIntro e);
      revert H; apply seek_inv_ext; reflexivity.
  - destruct (awaitingPlay s); [|exact H].
    apply seek_inv_init_resume.
    revert H. apply seek_inv_ext; reflexivity.
  - destruct (rafScheduled s); [|exact H].
    apply seek_inv_loop. exact H.
  - revert H. apply seek_inv_ext; reflexivity.
  - revert H. apply seek_inv_ext; reflexivity.
  - revert H. apply seek_inv_ext; reflexivity.
  - destruct (hasRVFC s); [|exact H].
    revert H. apply seek_inv_ext; reflexivity.
Qed.

(** From the start of the script on, whatever is notified, the seeks
    written to the media are pairwise at least [minSeekInterval] apart. *)
Lemma run_seeks_spaced xs :
  ForallOrdPairs spaced (seeks_of (trace (run initial xs))).
Proof.
  assert (H : forall s, seek_inv s -> seek_inv (run s xs)).
  { induction xs as [|x xs IH]; intros s Hs; [exact Hs|].
    apply (IH (step s x)). apply seek_inv_step. exact Hs. }
  apply H. split; constructor.
Qed.

(** ** loop: the smoothing step *)

Lemma seekToTime_frame e time nowMs s :
  let s' := seekToTime e time nowMs s in
  initialized s' = initialized s /\ targetTime s' = targetTime s /\
  smoothTime s' = smoothTime s /\ rafScheduled s' = rafScheduled s /\
  lastTick s' = lastTick s /\ hasRVFC s' = hasRVFC s /\
  siteReady s' = siteReady s /\ loadedListener s' = loadedListener s /\
  awaitingPlay s' = awaitingPlay s.
Proof.
  simpl. rewrite seekToTime_cases.
  destruct (seek_accepts e time nowMs s); simpl; repeat split; reflexivity.
Qed.

Lemma target_of_range e : 0 <= target_of e <= FREEZE_TIME.
Proof. apply clamp_bounds. unfold FREEZE_TIME. lra. Qed.

Lemma loop_fields e nowMs s :
  initialized s = true ->
  targetTime (loop e nowMs s) = target_of e /\
  smoothTime (loop e nowMs s)
    = smoothTime s + (target_of e - smoothTime s) * alpha_of (tick_dt s nowMs) /\
  lastTick (loop e nowMs s) = nowMs /\
  siteReady (loop e nowMs s)
    = Rgeb (smoothTime (loop e nowMs s)) (FREEZE_TIME - SCROLL_SLOP) /\
  initialized (loop e nowMs s) = true /\
  rafScheduled (loop e nowMs s) = true.
Proof.
  intros Hi. unfold loop. rewrite Hi. simpl.
  match goal with
  | |- context [seekToTime ?e ?t ?n ?x] =>
      destruct (seekToTime_frame e t n x)
        as (Ei & Et & Es & _ & El & _ & Er & _ & _)
  end.
  simpl in *. rewrite Ei, Et, Es, El, Er.
  repeat split; try reflexivity. exact Hi.
Qed.

Lemma alpha_of_range dt : 0 < dt -> 0 < alpha_of dt < 1.
Proof.
  intros Hdt. unfold alpha_of.
  pose proof (exp_pos (- SMOOTH_RESPONSE * dt)) as Hp.
  assert (Hl : exp (- SMOOTH_RESPONSE * dt) < exp 0).
  { apply exp_increasing. unfold SMOOTH_RESPONSE. lra. }
  rewrite exp_0 in Hl. lra.
Qed.

Lemma alpha_of_zero : alpha_of 0 = 0.
Proof. unfold alpha_of. rewrite Rmult_0_r, exp_0. lra. Qed.

Lemma tick_dt_first s nowMs : lastTick s = 0 -> tick_dt s nowMs = 1 / 60.
Proof.
  intros H. unfold tick_dt.
  apply truthy_false in H. rewrite H. reflexivity.
Qed.

Lemma tick_dt_next s nowMs :
  lastTick s <> 0 ->
  tick_dt s nowMs = Rmin ((nowMs - lastTick s) / 1000) 0.1.
Proof.
  intros H. unfold tick_dt.
  apply truthy_true in H. rewrite H. reflexivity.
Qed.

(** One step of the filter, as arithmetic on exact numbers.  The strict
    inequality is a fact of the reals only: in the doubles of the source
    a small gap can be left as it is, see
    [smoothing_absorbed_in_doubles]. *)
Lemma smoothing_contracts (x t a : R) :
  0 < a < 1 -> x <> t ->
  Rabs (x + (t - x) * a - t) < Rabs (x - t).
Proof.
  intros Ha Hne.
  replace (x + (t - x) * a - t) with ((x - t) * (1 - a)) by ring.
  rewrite Rabs_mult, (Rabs_pos_eq (1 - a)) by lra.
  assert (0 < Rabs (x - t)) by (apply Rabs_pos_lt; lra).
  nra.
Qed.

Lemma smoothing_between (x t a : R) :
  0 <= a <= 1 ->
  Rmin x t <= x + (t - x) * a <= Rmax x t.
Proof. intros Ha. minmax_cases; nra. Qed.


Lemma between_closer (x t y : R) :
  Rmin x t <= y <= Rmax x t -> Rabs (y - t) <= Rabs (x - t).
Proof. minmax_cases; intros [? ?]; lra. Qed.

(** The update of line 124 on doubles, at concrete inputs.  Two ulps
    below the target 7, with the weight that dt = 1/60 gives
    (1 - e^(-11/60) as a double), the increment is a third of an ulp and
    the sum rounds back to where it was: the distance to the target is
    not reduced.  One ulp below 7, with the weight that dt = 0.1 gives,
    the sum rounds onto 7. *)
Lemma smoothing_absorbed_in_doubles :
  smooth_update_f64 0x1.bfffffffffffep+2 7 0x1.570f2964d96b0p-3
    = 0x1.bfffffffffffep+2%float /\
  smooth_update_f64 0x1.bffffffffffffp+2 7 0x1.5591ebdb77208p-1 = 7%float.
Proof. split; vm_compute; reflexivity. Qed.



(** ** The first step after a jump of the target *)

Lemma exp_sq_lower (a b lo lo' : R) :
  b = 2 * a -> 0 <= lo -> lo <= exp a -> lo' <= lo * lo -> lo' <= exp b.
Proof.
  intros -> H0 Hlo Hsq.
  replace (2 * a) with (a + a) by ring. rewrite exp_plus.
  apply Rle_trans with (lo * lo); [exact Hsq|].
  apply Rmult_le_compat; assumption.
Qed.

(** Five squarings from [1 - 11/1920 <= exp (-11/1920)]. *)
Lemma exp_11_60_lower : 0.83205 <= exp (- (11 / 60)).
Proof.
  pose proof (exp_ineq1_le (- (11 / 1920))) as H0.
  assert (H1 : 0.9885744 <= exp (- (11 / 960)))
    by (apply (exp_sq_lower (- (11 / 1920)) _ (1909 / 1920)); lra).
  assert (H2 : 0.9772793 <= exp (- (11 / 480)))
    by (apply (exp_sq_lower (- (11 / 960)) _ 0.9885744); lra).
  assert (H3 : 0.9550748 <= exp (- (11 / 240)))
    by (apply (exp_sq_lower (- (11 / 480)) _ 0.9772793); lra).
  assert (H4 : 0.9121678 <= exp (- (11 / 120)))
    by (apply (exp_sq_lower (- (11 / 240)) _ 0.9550748); lra).
  apply (exp_sq_lower (- (11 / 120)) _ 0.9121678); lra.
Qed.

(** Seven squarings from [1 + 11/7680 <= exp (11/7680)], then the
    inverse. *)
Lemma exp_11_60_upper : exp (- (11 / 60)) <= 0.83261.
Proof.
  pose proof (exp_ineq1_le (11 / 7680)) as H0.
  assert (H1 : 1.0028666 <= exp (11 / 3840))
    by (apply (exp_sq_lower (11 / 7680) _ (7691 / 7680)); lra).
  assert (H2 : 1.0057414 <= exp (11 / 1920))
    by (apply (exp_sq_lower (11 / 3840) _ 1.0028666); lra).
  assert (H3 : 1.0115157 <= exp (11 / 960))
    by (apply (exp_sq_lower (11 / 1920) _ 1.0057414); lra).
  assert (H4 : 1.023164 <= exp (11 / 480))
    by (apply (exp_sq_lower (11 / 960) _ 1.0115157); lra).
  assert (H5 : 1.0468645 <= exp (11 / 240))
    by (apply (exp_sq_lower (11 / 480) _ 1.023164); lra).
  assert (H6 : 1.0959252 <= exp (11 / 120))
    by (apply (exp_sq_lower (11 / 240) _ 1.0468645); lra).
  assert (H7 : 1.201052 <= exp (11 / 60))
    by (apply (exp_sq_lower (11 / 120) _ 1.0959252); lra).
  pose proof (exp_pos (- (11 / 60))) as Hp.
  assert (E : exp (11 / 60) * exp (- (11 / 60)) = 1).
  { rewrite <- exp_plus. replace (11 / 60 + - (11 / 60)) with 0 by lra.
    apply exp_0. }
  nra.
Qed.

Lemma loop_after_jump e nowMs s :
  initialized s = true -> smoothTime s = 0 ->
  tick_dt s nowMs = 1 / 60 -> getPageProgress e = 1 ->
  targetTime (loop e nowMs s) = 7 /\
  smoothTime (loop e nowMs s) = 7 * (1 - exp (- (11 / 60))).
Proof.
  intros Hi Hs Hdt Hp.
  destruct (loop_fields e nowMs s Hi) as (Et & Es & _).
  assert (T : target_of e = 7).
  { unfold target_of. rewrite Hp. unfold FREEZE_TIME.
    rewrite clamp_id; lra. }
  rewrite Es, Et, T, Hs, Hdt. split; [reflexivity|].
  unfold alpha_of, SMOOTH_RESPONSE.
  match goal with
  | |- context [exp ?u] =>
      replace u with (- (11 / 60)) by lra
  end.
  ring.
Qed.

(** C2, as stated, fails: with the smoothed time at 0 and the page
    scrolled to the end of the intro (progress 1, target 7), the first
    step (dt = 1/60) leaves the smoothed time at 7 (1 - e^(-11/60)),
    which is below 1.18: more than 4.3 away from 5.53. *)
Lemma first_step_after_jump_not_5_53 :
  let s := running 0 0 0 0 (-1) in
  let e := env_at (-2000) 3000 1000 in
  smoothTime s = 0 /\ tick_dt s 16 = 1 / 60 /\ getPageProgress e = 1 /\
  smoothTime (loop e 16 s) = 7 * (1 - exp (- (11 / 60))) /\
  4.3 < Rabs (smoothTime (loop e 16 s) - 5.53).
Proof.
  intros s e.
  assert (Hdt : tick_dt s 16 = 1 / 60) by (apply tick_dt_first; reflexivity).
  assert (Hp : getPageProgress e = 1).
  { unfold getPageProgress, clamp; simpl. decide_cmp; lra. }
  destruct (loop_after_jump e 16 s eq_refl eq_refl Hdt Hp) as [_ Es].
  repeat split; try assumption.
  rewrite Es. pose proof exp_11_60_lower.
  rewrite Rabs_left; lra.
Qed.

(** C2, amended.  With the smoothed time at 0 and the progress at 1 (so
    the target at 7), one step with dt = 1/60 and decay rate 11 leaves
    the smoothed time at exactly 7 (1 - e^(-11/60)), which lies between
    1.17 and 1.18. *)
Theorem first_step_after_jump (e : env) (nowMs : R) (s : state) :
  initialized s = true ->
  smoothTime s = 0 ->
  tick_dt s nowMs = 1 / 60 ->
  getPageProgress e = 1 ->
  targetTime (loop e nowMs s) = 7 /\
  smoothTime (loop e nowMs s) = 7 * (1 - exp (- (11 / 60))) /\
  1.17 < smoothTime (loop e nowMs s) < 1.18.
Proof.
  intros Hi Hs Hdt Hp.
  destruct (loop_after_jump e nowMs s Hi Hs Hdt Hp) as [Et Es].
  split; [exact Et|]. split; [exact Es|].
  rewrite Es.
  pose proof exp_11_60_lower. pose proof exp_11_60_upper. lra.
Qed.

Lemma first_step_after_jump_witness :
  targetTime (loop (env_at (-2000) 3000 1000) 16 (running 0 0 0 0 (-1))) = 7 /\
  smoothTime (loop (env_at (-2000) 3000 1000) 16 (running 0 0 0 0 (-1)))
    = 7 * (1 - exp (- (11 / 60))) /\
  1.17 < smoothTime (loop (env_at (-2000) 3000 1000) 16 (running 0 0 0 0 (-1)))
    < 1.18.
Proof.
  apply (first_step_after_jump (env_at (-2000) 3000 1000) 16
           (running 0 0 0 0 (-1))).
  - reflexivity.
  - reflexivity.
  - unfold tick_dt; simpl. decide_cmp; reflexivity.
  - unfold getPageProgress, clamp; simpl. decide_cmp; lra.
Defined.

(** ** Smoothed time stays a playback position of the intro *)

Lemma alpha_of_range_le dt : 0 <= dt -> 0 <= alpha_of dt < 1.
Proof.
  intros [Hdt|<-].
  - pose proof (alpha_of_range dt Hdt). lra.
  - rewrite alpha_of_zero. lra.
Qed.

Lemma tick_dt_nonneg s nowMs :
  lastTick s = 0 \/ lastTick s <= nowMs -> 0 <= tick_dt s nowMs.
Proof.
  intros H. unfold tick_dt, truthy.
  destruct (Req_dec_T (lastTick s) 0) as [E|N]; [lra|].
  destruct H as [H|H]; [contradiction|].
  unfold Rmin. destruct (Rle_dec _ _); lra.
Qed.

Lemma init_resume_fields e s :
  targetTime (init_resume e s) = target_of e /\
  smoothTime (init_resume e s) = target_of e /\
  lastTick (init_resume e s) = 0 /\
  initialized (init_resume e s) = true /\
  rafScheduled (init_resume e s) = true.
Proof.
  unfold init_resume, setupVideoFrameCallback.
  match goal with
  | |- context [seekToTime ?e ?t ?n ?x] =>
      destruct (seekToTime_frame e t n x)
        as (Ei & Et & Es & _ & El & _ & _ & _ & _);
      set (y := seekToTime e t n x) in *
  end.
  simpl in *.
  destruct (negb (rvfcSupported e) || hasRVFC y); simpl;
    rewrite ?Ei, ?Et, ?Es; repeat split; reflexivity.
Qed.

Lemma step_tick_inv t s ev e :
  tick_inv t s ->
  (forall nowMs, ev = AnimationFrame nowMs -> t <= nowMs) ->
  tick_inv (match ev with AnimationFrame nowMs => nowMs | _ => t end)
    (step s (ev, e)).
Proof.
  intros [[[Ht1 Ht2] [Hs1 Hs2]] Hl] Hmono.
  pose proof (target_of_range e) as Hr.
  destruct ev; simpl.
  - (* loadeddata *)
    destruct (loadedListener s); [|repeat split; assumption].
    unfold init_start. destruct (skipIntro e); repeat split; simpl; assumption.
  - (* play settled *)
    destruct (awaitingPlay s); [|repeat split; assumption].
    destruct (init_resume_fields e (set_awaitingPlay false s))
      as (Et & Es & El & _).
    unfold tick_inv, time_inv. rewrite Et, Es, El.
    repeat split; try apply Hr. left; reflexivity.
  - (* animation frame *)
    specialize (Hmono nowMs eq_refl).
    destruct (rafScheduled s).
    + destruct (initialized s) eqn:Hi.
      * destruct (loop_fields e nowMs s Hi) as (Et & Es & El & _).
        unfold tick_inv, time_inv. rewrite Et, Es, El.
        assert (Hdt : 0 <= tick_dt s nowMs)
          by (apply tick_dt_nonneg; destruct Hl; [left; assumption|right; lra]).
        pose proof (alpha_of_range_le _ Hdt) as Ha.
        pose proof (smoothing_between (smoothTime s) (target_of e)
                      (alpha_of (tick_dt s nowMs)) ltac:(lra)) as Hb.
        destruct Hr as [Hr1 Hr2].
        repeat split; try assumption; try (right; lra);
          revert Hb; minmax_cases; intros [? ?]; lra.
      * unfold loop. rewrite Hi. simpl.
        repeat split; try assumption. simpl.
        destruct Hl; [left; assumption|right; lra].
    + repeat split; try assumption.
      destruct Hl; [left; assumption|right; lra].
  - (* resize *)
    repeat split; simpl; try apply Hr; assumption.
  - repeat split; simpl; assumption.
  - repeat split; simpl; assumption.
  - destruct (hasRVFC s); repeat split; simpl; assumption.
Qed.

Lemma run_tick_inv xs : forall t s,
  tick_inv t s -> frames_monotone t xs -> time_inv (run s xs).
Proof.
  induction xs as [|[ev e] xs IH]; intros t s Hinv Hm.
  - apply Hinv.
  - change (run s ((ev, e) :: xs)) with (run (step s (ev, e)) xs).
    destruct ev; simpl in Hm;
      try (apply (IH t); [|exact Hm];
           match goal with
           | |- tick_inv _ (step _ (?ev, _)) =>
               apply (step_tick_inv t s ev e Hinv)
           end; intros ? [=]).
    destruct Hm as [Hle Hm].
    apply (IH nowMs); [|exact Hm].
    apply (step_tick_inv t s (AnimationFrame nowMs) e Hinv).
    intros ? [= <-]. exact Hle.
Qed.

(** C3.  Smoothed time, and target time with it, is within
    [0, FREEZE_TIME] = [0, 7] when the script starts and after every run
    of notifications in which the animation frames carry non-decreasing
    timestamps: every step of the loop and the initialization keep it
    there. *)
Theorem smoothTime_invariant (t : R) (xs : list (event * env)) :
  frames_monotone t xs ->
  time_inv initial /\
  0 <= smoothTime (run initial xs) <= 7 /\
  0 <= targetTime (run initial xs) <= 7.
Proof.
  intros Hm.
  assert (H0 : time_inv initial)
    by (unfold time_inv, FREEZE_TIME; simpl; lra).
  split; [exact H0|].
  assert (H : time_inv (run initial xs)).
  { apply (run_tick_inv xs t); [|exact Hm].
    split; [exact H0|left; reflexivity]. }
  unfold time_inv, FREEZE_TIME in H. tauto.
Qed.

Lemma smoothTime_invariant_witness :
  let xs := [ (LoadedData, env_at (-500) 3000 1000);
              (PlaySettled, env_at (-500) 3000 1000);
              (AnimationFrame 16, env_at (-700) 3000 1000);
              (AnimationFrame 33, env_at (-900) 3000 1000) ] in
  time_inv initial /\
  0 <= smoothTime (run initial xs) <= 7 /\
  0 <= targetTime (run initial xs) <= 7.
Proof.
  intros xs. apply (smoothTime_invariant 0 xs).
  simpl. repeat split; lra.
Defined.

(** ** Skipping the intro *)

Lemma init_start_skipped e s :
  skipIntro e = true -> hasRVFC s = false ->
  rafScheduled s = false -> awaitingPlay s = false ->
  skipped (init_start e (set_loadedListener false s)) /\
  trace (init_start e (set_loadedListener false s)) = trace s.
Proof.
  intros Hk Hv Hr Ha. unfold init_start. rewrite Hk.
  unfold skipped; simpl. repeat split; assumption.
Qed.

(** Once skipped, a notification schedules nothing, writes nothing to the
    media and leaves the page ready; it redraws when it is one of
    "resize", "seeked", "timeupdate". *)
Lemma step_skipped s x :
  skipped s ->
  skipped (step s x) /\
  (trace (step s x) = trace s /\ redraw_notifications [x] = O \/
   trace (step s x) = Redraw (frameReady (snd x)) :: trace s /\
   redraw_notifications [x] = 1%nat).
Proof.
  intros (Hr & Hi & Hraf & Haw & Hl & Hv).
  destruct x as [ev e]. destruct ev; simpl.
  - rewrite Hl. split; [repeat split; assumption|left; split; reflexivity].
  - rewrite Haw. split; [repeat split; assumption|left; split; reflexivity].
  - rewrite Hraf. split; [repeat split; assumption|left; split; reflexivity].
  - split; [unfold skipped; simpl; repeat split; assumption|].
    right; split; reflexivity.
  - split; [unfold skipped; simpl; repeat split; assumption|].
    right; split; reflexivity.
  - split; [unfold skipped; simpl; repeat split; assumption|].
    right; split; reflexivity.
  - rewrite Hv. split; [repeat split; assumption|left; split; reflexivity].
Qed.

Lemma redraw_notifications_cons x xs :
  redraw_notifications (x :: xs)
    = (redraw_notifications [x] + redraw_notifications xs)%nat.
Proof. destruct x as [[] e]; reflexivity. Qed.

Lemma run_skipped xs : forall s,
  skipped s -> only_redraws (trace s) ->
  skipped (run s xs) /\ only_redraws (trace (run s xs)) /\
  redraws_of (trace (run s xs))
    = (redraws_of (trace s) + redraw_notifications xs)%nat.
Proof.
  induction xs as [|x xs IH]; intros s Hs Ho.
  - simpl. split; [exact Hs|]. split; [exact Ho|]. lia.
  - change (run s (x :: xs)) with (run (step s x) xs).
    destruct (step_skipped s x Hs) as [Hs' Ht].
    assert (Ho' : only_redraws (trace (step s x))).
    { destruct Ht as [[-> _]|[-> _]]; [exact Ho|].
      intros y [<-|Hy]; [eexists; reflexivity|apply Ho; exact Hy]. }
    destruct (IH (step s x) Hs' Ho') as (H1 & H2 & H3).
    split; [exact H1|]. split; [exact H2|].
    rewrite H3, (redraw_notifications_cons x xs).
    destruct Ht as [[-> ->]|[-> ->]]; simpl; lia.
Qed.

Lemma only_redraws_no_seek t : only_redraws t -> seeks_of t = [].
Proof.
  induction t as [|x t IH]; intros Ho; [reflexivity|].
  destruct (Ho x (or_introl eq_refl)) as [p ->]. simpl.
  apply IH. intros y Hy. apply Ho. right; exact Hy.
Qed.

Lemma skipped_phase s : skipped s -> phase_of s = Idle.
Proof.
  intros (_ & _ & Hraf & Haw & Hl & _).
  unfold phase_of. rewrite Hraf, Haw, Hl. reflexivity.
Qed.

(** C8, as stated, fails: the page is opened with the skip-intro
    parameter, "loadeddata" runs init, and a later "resize" redraws the
    surface, the media having a decoded frame.  Before that the media
    was loading: the parameter is only read once it has loaded. *)
Lemma skip_intro_resize_redraws :
  let e := env_skip 0 3000 1000 in
  skipIntro e = true /\ phase_of initial = Loading /\
  siteReady (step initial (LoadedData, e)) = true /\
  trace (run (step initial (LoadedData, e)) [(Resize, e)]) = [Redraw true].
Proof. repeat split. Qed.

(** C8, amended.  When the skip-intro parameter is set, init makes the
    Ready Flag true at once and neither seeks nor redraws.  From then
    on, whatever is notified, the Ready Flag stays true, no seek is ever
    written to the media, the autoplay probe and the per-frame loop are
    never started, and the only effects are redraws, exactly one for
    each "resize", "seeked" or "timeupdate" notification. *)
Theorem skip_intro (e0 : env) (xs : list (event * env)) :
  skipIntro e0 = true ->
  let s0 := step initial (LoadedData, e0) in
  let s := run s0 xs in
  siteReady s0 = true /\ trace s0 = [] /\
  siteReady s = true /\
  seeks_of (trace s) = [] /\
  phase_of s = Idle /\
  only_redraws (trace s) /\
  redraws_of (trace s) = redraw_notifications xs.
Proof.
  intros Hk s0 s.
  destruct (init_start_skipped e0 initial Hk eq_refl eq_refl eq_refl)
    as [Hs0 Ht0].
  change (init_start e0 (set_loadedListener false initial)) with s0 in Hs0, Ht0.
  simpl in Ht0.
  assert (Ho0 : only_redraws (trace s0)) by (rewrite Ht0; intros x []).
  destruct (run_skipped xs s0 Hs0 Ho0) as (Hs & Ho & Hn).
  fold s in Hs, Ho, Hn. rewrite Ht0 in Hn. simpl in Hn.
  split; [apply Hs0|]. split; [exact Ht0|].
  split; [apply Hs|].
  split; [apply only_redraws_no_seek; exact Ho|].
  split; [apply skipped_phase; exact Hs|].
  split; [exact Ho|exact Hn].
Qed.

Lemma skip_intro_witness :
  let e0 := env_skip 0 3000 1000 in
  let xs := [ (AnimationFrame 16, e0); (Resize, e0); (PlaySettled, e0);
              (TimeUpdate, e0); (VideoFrame, e0) ] in
  let s0 := step initial (LoadedData, e0) in
  let s := run s0 xs in
  siteReady s0 = true /\ trace s0 = [] /\
  siteReady s = true /\
  seeks_of (trace s) = [] /\
  phase_of s = Idle /\
  only_redraws (trace s) /\
  redraws_of (trace s) = redraw_notifications xs.
Proof.
  intros e0 xs.
  apply (skip_intro e0 xs). reflexivity.
Defined.

(** ** moonPhase *)

Import Dami.

Lemma Rtrunc_nonneg x : 0 <= x -> IZR (Rtrunc x) <= x < IZR (Rtrunc x) + 1.
Proof.
  intros Hx. unfold Rtrunc. destruct (Rle_dec 0 x); [|contradiction].
  destruct (base_Int_part x). lra.
Qed.

Lemma Rtrunc_neg x : x < 0 -> x <= IZR (Rtrunc x) < x + 1.
Proof.
  intros Hx. unfold Rtrunc. destruct (Rle_dec 0 x); [lra|].
  rewrite opp_IZR. destruct (base_Int_part (- x)). lra.
Qed.

Section Remainder.

Variables x y : R.
Hypothesis y_pos : 0 < y.

Lemma js_rem_quotient : js_rem x y = y * (x / y - IZR (Rtrunc (x / y))).
Proof. unfold js_rem. field. lra. Qed.

(** The remainder of a non-negative dividend. *)
Lemma js_rem_nonneg : 0 <= x -> 0 <= js_rem x y < y.
Proof.
  intros Hx. rewrite js_rem_quotient.
  assert (Hq : 0 <= x / y).
  { unfold Rdiv. apply Rmult_le_pos; [exact Hx|].
    apply Rlt_le, Rinv_0_lt_compat, y_pos. }
  destruct (Rtrunc_nonneg _ Hq). split; nra.
Qed.

(** The remainder of a negative dividend is not positive. *)
Lemma js_rem_neg : x < 0 -> - y < js_rem x y <= 0.
Proof.
  intros Hx. rewrite js_rem_quotient.
  assert (Hq : x / y < 0).
  { unfold Rdiv. rewrite <- (Rmult_0_l (/ y)).
    apply Rmult_lt_compat_r; [apply Rinv_0_lt_compat, y_pos|exact Hx]. }
  destruct (Rtrunc_neg _ Hq). split; nra.
Qed.

Lemma js_rem_abs : - y < js_rem x y < y.
Proof.
  destruct (Rle_dec 0 x) as [Hx|Hx].
  - destruct (js_rem_nonneg Hx). lra.
  - destruct (js_rem_neg ltac:(lra)). lra.
Qed.

End Remainder.

(** [Date.UTC(2024, 0, 11, 11, 57, 0)]. *)
Example knownNewMoon_ms : knownNewMoon = 1704974220000%Z.
Proof. reflexivity. Qed.

Lemma synodicMonth_pos : 0 < synodicMonth.
Proof. unfold synodicMonth. lra. Qed.

(** C10.  For every date, before the reference new moon as well as
    after it, the phase that moonPhase returns is in [0, 29.530588853)
    and the illumination is in [0, 1]. *)
Theorem moonPhase_range (date : Z) :
  0 <= phase (moonPhase date) < 29.530588853 /\
  0 <= illumination (moonPhase date) <= 1.
Proof.
  unfold moonPhase; simpl.
  set (d := IZR (date - knownNewMoon) / 1000 / 60 / 60 / 24).
  pose proof synodicMonth_pos as Hm.
  pose proof (js_rem_abs d synodicMonth Hm) as H1.
  assert (H2 : 0 <= js_rem d synodicMonth + synodicMonth) by lra.
  pose proof (js_rem_nonneg _ synodicMonth Hm H2) as H3.
  split.
  - exact H3.
  - match goal with |- context [cos ?a] => pose proof (COS_bound a) end.
    lra.
Qed.

Lemma Rtrunc_small x : -1 < x < 1 -> Rtrunc x = 0%Z.
Proof.
  intros Hx. unfold Rtrunc. destruct (Rle_dec 0 x).
  - symmetry. apply Int_part_spec. simpl. lra.
  - replace (Int_part (- x)) with 0%Z; [reflexivity|].
    apply Int_part_spec. simpl. lra.
Qed.

Lemma js_rem_small x y : 0 < y -> - y < x < y -> js_rem x y = x.
Proof.
  intros Hy Hx. unfold js_rem. rewrite Rtrunc_small; [simpl; ring|].
  assert (Hi : 0 < / y) by (apply Rinv_0_lt_compat; exact Hy).
  unfold Rdiv. split.
  - apply (Rmult_lt_reg_r y); [exact Hy|].
    rewrite Rmult_assoc, Rinv_l by lra. lra.
  - apply (Rmult_lt_reg_r y); [exact Hy|].
    rewrite Rmult_assoc, Rinv_l by lra. lra.
Qed.

(** One day before the reference new moon (2024-01-10 11:57 UTC) the
    first remainder is -1 and the second one brings the phase back
    into range. *)
Example moonPhase_day_before :
  phase (moonPhase 1704887820000) = 28.530588853.
Proof.
  unfold moonPhase; simpl.
  replace (1704887820000 - knownNewMoon)%Z with (-86400000)%Z by reflexivity.
  replace (IZR (-86400000) / 1000 / 60 / 60 / 24) with (-1) by lra.
  rewrite (js_rem_small (-1)) by (unfold synodicMonth; lra).
  rewrite js_rem_small by (unfold synodicMonth; lra).
  unfold synodicMonth. lra.
Qed.

(** * Further properties of the synchronizer *)

Import Runs.

(** ** The cap on dt *)

Lemma tick_dt_capped s nowMs : tick_dt s nowMs <= 0.1.
Proof.
  unfold tick_dt. destruct (truthy (lastTick s)); [apply Rmin_r|lra].
Qed.

Lemma loop_gap e nowMs s :
  initialized s = true ->
  smoothTime (loop e nowMs s) - target_of e
    = (smoothTime s - target_of e) * exp (- SMOOTH_RESPONSE * tick_dt s nowMs).
Proof.
  intros Hi. destruct (loop_fields e nowMs s Hi) as (_ & Es & _).
  rewrite Es. unfold alpha_of. ring.
Qed.

(** Three squarings from [1 - 11/80 <= exp (-11/80)]. *)
Lemma exp_11_10_lower : 0.3 <= exp (- (11 / 10)).
Proof.
  pose proof (exp_ineq1_le (- (11 / 80))) as H0.
  assert (H1 : 0.7439 <= exp (- (11 / 40)))
    by (apply (exp_sq_lower (- (11 / 80)) _ (69 / 80)); lra).
  assert (H2 : 0.5533 <= exp (- (11 / 20)))
    by (apply (exp_sq_lower (- (11 / 40)) _ 0.7439); lra).
  apply (exp_sq_lower (- (11 / 20)) _ 0.5533); lra.
Qed.

(** However late a frame comes, dt is at most 0.1, so the weight
    1 - e^(-11 dt) by which the step moves the smoothed time toward the
    target is at most 0.7 (1 - e^(-1.1) is about 0.667); with a
    timestamp that is not behind the last tick the weight is not
    negative either. *)
Theorem loop_weight_capped (e : env) (nowMs : R) (s : state) :
  initialized s = true ->
  smoothTime (loop e nowMs s)
    = smoothTime s
      + (targetTime (loop e nowMs s) - smoothTime s)
        * alpha_of (tick_dt s nowMs) /\
  tick_dt s nowMs <= 0.1 /\
  alpha_of (tick_dt s nowMs) <= 0.7 /\
  (lastTick s = 0 \/ lastTick s <= nowMs -> 0 <= alpha_of (tick_dt s nowMs)).
Proof.
  intros Hi. pose proof (tick_dt_capped s nowMs) as Hc.
  destruct (loop_fields e nowMs s Hi) as (Et & Es & _).
  split; [rewrite Et; exact Es|].
  split; [exact Hc|].
  assert (HE : exp (- (11 / 10)) <= exp (- SMOOTH_RESPONSE * tick_dt s nowMs)).
  { unfold SMOOTH_RESPONSE.
    destruct (Rle_lt_or_eq_dec _ _ Hc) as [Hlt|Heq].
    - left. apply exp_increasing. lra.
    - right. f_equal. rewrite Heq. lra. }
  pose proof exp_11_10_lower.
  unfold alpha_of.
  split; [lra|].
  intros Hl.
  pose proof (alpha_of_range_le _ (tick_dt_nonneg s nowMs Hl)) as Ha.
  unfold alpha_of in Ha. lra.
Qed.

Lemma loop_weight_capped_witness :
  let s := running 0 0 1000 0 (-1) in
  let s' := loop (env_at (-2000) 3000 1000) 60000 s in
  smoothTime s'
    = smoothTime s + (targetTime s' - smoothTime s) * alpha_of (tick_dt s 60000) /\
  tick_dt s 60000 <= 0.1 /\
  alpha_of (tick_dt s 60000) <= 0.7 /\
  (lastTick s = 0 \/ lastTick s <= 60000 -> 0 <= alpha_of (tick_dt s 60000)).
Proof.
  apply (loop_weight_capped (env_at (-2000) 3000 1000) 60000
           (running 0 0 1000 0 (-1))).
  reflexivity.
Defined.

(** ** Runs of frames over a constant target *)

Lemma tick_dt_steady s nowMs :
  lastTick s <> 0 -> nowMs - lastTick s <= 100 ->
  tick_dt s nowMs = (nowMs - lastTick s) / 1000.
Proof.
  intros Hl Hg. rewrite tick_dt_next by exact Hl.
  apply Rmin_left. lra.
Qed.

Lemma run_frames_cons f fs s :
  rafScheduled s = true ->
  run s (frames_at (f :: fs)) = run (loop (snd f) (fst f) s) (frames_at fs).
Proof. intros Hr. unfold run; simpl. rewrite Hr. reflexivity. Qed.

(** A run of frames over a constant target, in closed form on exact
    numbers. *)
Lemma run_frames_gap (tgt : R) (fs : list (R * env)) : forall s,
  initialized s = true -> rafScheduled s = true -> lastTick s <> 0 ->
  Forall (fun f => target_of (snd f) = tgt) fs ->
  steady (lastTick s) fs ->
  let s' := run s (frames_at fs) in
  initialized s' = true /\ rafScheduled s' = true /\
  lastTick s' = last_stamp (lastTick s) fs /\
  smoothTime s' - tgt
    = (smoothTime s - tgt)
      * exp (- SMOOTH_RESPONSE * ((last_stamp (lastTick s) fs - lastTick s) / 1000)) /\
  (fs <> [] ->
   siteReady s' = Rgeb (smoothTime s') (FREEZE_TIME - SCROLL_SLOP)).
Proof.
  induction fs as [|[t e] fs IH]; intros s Hi Hr Hl Ht Hs.
  - simpl. repeat split; try assumption; try reflexivity.
    + replace ((lastTick s - lastTick s) / 1000) with 0 by lra.
      rewrite Rmult_0_r, exp_0. ring.
    + intros H; contradiction H; reflexivity.
  - apply Forall_cons_iff in Ht. destruct Ht as [Hte Ht']. simpl in Hte.
    destruct Hs as (Hnz & Hgap & Hs). simpl in Hnz, Hgap, Hs.
    destruct (loop_fields e t s Hi) as (Et & _ & El & Ready & Hi' & Hr').
    pose proof (loop_gap e t s Hi) as Hg.
    rewrite Hte, (tick_dt_steady s t Hl Hgap) in Hg.
    assert (Hl' : lastTick (loop e t s) <> 0) by (rewrite El; exact Hnz).
    rewrite <- El in Hs.
    destruct (IH (loop e t s) Hi' Hr' Hl' Ht' Hs) as (A & B & C & D & F).
    rewrite (run_frames_cons (t, e) fs s Hr). simpl.
    rewrite El in C, D.
    split; [exact A|]. split; [exact B|]. split; [exact C|]. split.
    + rewrite D, Hg, Rmult_assoc, <- exp_plus. f_equal. f_equal. lra.
    + intros _. destruct fs as [|f' fs'].
      * exact Ready.
      * apply F. discriminate.
Qed.

(** A step with a timestamp that is not behind the last tick leaves the
    smoothed time between where it was and the target. *)
Lemma loop_between e nowMs s :
  initialized s = true ->
  lastTick s = 0 \/ lastTick s <= nowMs ->
  Rmin (smoothTime s) (target_of e) <= smoothTime (loop e nowMs s)
    <= Rmax (smoothTime s) (target_of e).
Proof.
  intros Hi Hl.
  destruct (loop_fields e nowMs s Hi) as (_ & Es & _).
  pose proof (alpha_of_range_le _ (tick_dt_nonneg s nowMs Hl)) as Ha.
  rewrite Es. apply smoothing_between. lra.
Qed.

Lemma between_trans (x t y z : R) :
  Rmin x t <= y <= Rmax x t -> Rmin y t <= z <= Rmax y t ->
  Rmin x t <= z <= Rmax x t.
Proof. minmax_cases; intros [? ?] [? ?]; lra. Qed.

(** With the target held constant and timestamps that never go back, a
    run of frames never moves the smoothed time away from the target nor
    past it, however many frames there are and whatever their cadence:
    at the end it lies between where it started and the target, and its
    distance to the target has not grown. *)
Theorem frames_never_move_away (tgt t : R) (fs : list (R * env)) (s : state) :
  initialized s = true -> rafScheduled s = true ->
  lastTick s = 0 \/ lastTick s <= t ->
  frames_monotone t (frames_at fs) ->
  Forall (fun f => target_of (snd f) = tgt) fs ->
  Rmin (smoothTime s) tgt <= smoothTime (run s (frames_at fs))
    <= Rmax (smoothTime s) tgt /\
  Rabs (smoothTime (run s (frames_at fs)) - tgt) <= Rabs (smoothTime s - tgt).
Proof.
  intros Hi Hr Hl Hm Ht.
  assert (H : Rmin (smoothTime s) tgt <= smoothTime (run s (frames_at fs))
              <= Rmax (smoothTime s) tgt).
  { revert s t Hi Hr Hl Hm.
    induction fs as [|[now e] fs IH]; intros s t Hi Hr Hl Hm.
    - simpl. minmax_cases; lra.
    - apply Forall_cons_iff in Ht. destruct Ht as [Hte Ht]. simpl in Hte.
      simpl in Hm. destruct Hm as [Hle Hm].
      rewrite (run_frames_cons (now, e) fs s Hr). simpl fst. simpl snd.
      assert (Hl' : lastTick s = 0 \/ lastTick s <= now)
        by (destruct Hl; [left; assumption|right; lra]).
      pose proof (loop_between e now s Hi Hl') as Hb. rewrite Hte in Hb.
      destruct (loop_fields e now s Hi) as (_ & _ & El & _ & Hi' & Hr').
      apply (between_trans _ _ _ _ Hb).
      apply (IH Ht (loop e now s) now Hi' Hr'); [|exact Hm].
      right. rewrite El. lra. }
  split; [exact H|]. apply between_closer. exact H.
Qed.

Lemma frames_never_move_away_witness :
  let s := running 0 0 1000 0 (-1) in
  let e := env_at (-2000) 3000 1000 in
  let fs := [(1016, e); (1016, e); (1400, e); (9000, e)] in
  Rmin (smoothTime s) 7 <= smoothTime (run s (frames_at fs))
    <= Rmax (smoothTime s) 7 /\
  Rabs (smoothTime (run s (frames_at fs)) - 7) <= Rabs (smoothTime s - 7).
Proof.
  intros s e fs.
  assert (T : target_of e = 7).
  { unfold target_of, getPageProgress, clamp, FREEZE_TIME; simpl.
    decide_cmp; lra. }
  apply (frames_never_move_away 7 1000 fs s).
  - reflexivity.
  - reflexivity.
  - right; simpl; lra.
  - simpl. repeat split; lra.
  - repeat (apply Forall_cons; [exact T|]). apply Forall_nil.
Defined.

(** ** The Ready Flag *)

Lemma target_of_end e : getPageProgress e = 1 -> target_of e = 7.
Proof.
  intros Hp. unfold target_of. rewrite Hp. unfold FREEZE_TIME.
  rewrite clamp_id; lra.
Qed.

(** Five squarings from [1 + 33/160 <= exp (33/160)]. *)
Lemma exp_33_5_lower : 403 <= exp (33 / 5).
Proof.
  pose proof (exp_ineq1_le (33 / 160)) as H0.
  assert (H1 : 1.455 <= exp (33 / 80))
    by (apply (exp_sq_lower (33 / 160) _ (193 / 160)); lra).
  assert (H2 : 2.117 <= exp (33 / 40))
    by (apply (exp_sq_lower (33 / 80) _ 1.455); lra).
  assert (H3 : 4.4816 <= exp (33 / 20))
    by (apply (exp_sq_lower (33 / 40) _ 2.117); lra).
  assert (H4 : 20.084 <= exp (33 / 10))
    by (apply (exp_sq_lower (33 / 20) _ 4.4816); lra).
  apply (exp_sq_lower (33 / 10) _ 20.084); lra.
Qed.

Lemma exp_decay_600 (T : R) : 600 <= T -> exp (- 11 * (T / 1000)) <= / 403.
Proof.
  intros HT.
  assert (H1 : exp (- 11 * (T / 1000)) <= exp (- (33 / 5))).
  { destruct (Rle_lt_or_eq_dec _ _ HT) as [Hlt|Heq].
    - left. apply exp_increasing. lra.
    - right. f_equal. rewrite <- Heq. lra. }
  apply Rle_trans with (1 := H1).
  rewrite exp_Ropp. apply Rinv_le_contravar; [lra|apply exp_33_5_lower].
Qed.

(** Once the page is scrolled to the end of the intro and stays there,
    frames that come at most 100 ms apart make the page ready within
    600 ms, from wherever in [0, 7] the smoothed time was. *)
Theorem ready_within_600ms (fs : list (R * env)) (s : state) :
  initialized s = true -> rafScheduled s = true -> lastTick s <> 0 ->
  0 <= smoothTime s <= 7 ->
  Forall (fun f => getPageProgress (snd f) = 1) fs ->
  steady (lastTick s) fs ->
  600 <= last_stamp (lastTick s) fs - lastTick s ->
  siteReady (run s (frames_at fs)) = true.
Proof.
  intros Hi Hr Hl Hs Hp Hst HT.
  assert (Ht : Forall (fun f => target_of (snd f) = 7) fs).
  { eapply Forall_impl; [|exact Hp]. intros f. apply target_of_end. }
  destruct (run_frames_gap 7 fs s Hi Hr Hl Ht Hst) as (_ & _ & _ & Hg & Hrd).
  assert (Hne : fs <> []).
  { intros ->. simpl in HT. lra. }
  rewrite (Hrd Hne). apply Rleb_true.
  pose proof (exp_decay_600 _ HT) as Hd.
  unfold SMOOTH_RESPONSE in Hg.
  set (E := exp _) in *.
  assert (0 < E) by apply exp_pos.
  unfold FREEZE_TIME, SCROLL_SLOP.
  assert (/ 403 < 0.0025) by lra.
  nra.
Qed.

Lemma ready_within_600ms_witness :
  let e := env_at (-2000) 3000 1000 in
  let fs := [(1100, e); (1200, e); (1300, e); (1400, e); (1500, e); (1600, e)] in
  siteReady (run (running 0 0 1000 0 (-1)) (frames_at fs)) = true.
Proof.
  intros e fs.
  assert (P : getPageProgress e = 1).
  { unfold getPageProgress, clamp; simpl. decide_cmp; lra. }
  apply (ready_within_600ms fs (running 0 0 1000 0 (-1))).
  - reflexivity.
  - reflexivity.
  - simpl; lra.
  - simpl; lra.
  - repeat (apply Forall_cons; [exact P|]). apply Forall_nil.
  - simpl. repeat split; lra.
  - simpl. lra.
Defined.

(** At the end of the intro a page that is ready stays ready: a step
    whose timestamp is not behind the last tick keeps the smoothed time
    at or above FREEZE_TIME - SCROLL_SLOP. *)
Theorem ready_sticks_at_end (e : env) (nowMs : R) (s : state) :
  initialized s = true ->
  getPageProgress e = 1 ->
  lastTick s = 0 \/ lastTick s <= nowMs ->
  FREEZE_TIME - SCROLL_SLOP <= smoothTime s ->
  siteReady (loop e nowMs s) = true /\
  FREEZE_TIME - SCROLL_SLOP <= smoothTime (loop e nowMs s).
Proof.
  intros Hi Hp Hl Hs.
  destruct (loop_fields e nowMs s Hi) as (_ & Es & _ & Hr & _).
  pose proof (alpha_of_range_le _ (tick_dt_nonneg s nowMs Hl)) as Ha.
  pose proof (smoothing_between (smoothTime s) (target_of e)
                (alpha_of (tick_dt s nowMs)) ltac:(lra)) as Hb.
  rewrite (target_of_end e Hp) in *. rewrite <- Es in Hb.
  assert (H : FREEZE_TIME - SCROLL_SLOP <= smoothTime (loop e nowMs s)).
  { revert Hb Hs. unfold FREEZE_TIME, SCROLL_SLOP.
    minmax_cases; intros [? ?] ?; lra. }
  split; [|exact H].
  rewrite Hr. apply Rleb_true. exact H.
Qed.

Lemma ready_sticks_at_end_witness :
  siteReady (loop (env_at (-2000) 3000 1000) 1016 (running 7 6.99 1000 0 (-1)))
    = true /\
  FREEZE_TIME - SCROLL_SLOP
    <= smoothTime (loop (env_at (-2000) 3000 1000) 1016
                     (running 7 6.99 1000 0 (-1))).
Proof.
  apply (ready_sticks_at_end (env_at (-2000) 3000 1000) 1016
           (running 7 6.99 1000 0 (-1))).
  - reflexivity.
  - unfold getPageProgress, clamp; simpl. decide_cmp; lra.
  - right; simpl; lra.
  - unfold FREEZE_TIME, SCROLL_SLOP; simpl; lra.
Defined.

(** ** What a notification adds to the trace *)

Lemma seekToTime_trace e time nowMs s :
  trace (seekToTime e time nowMs s) = trace s \/
  trace (seekToTime e time nowMs s)
    = SeekWrite nowMs (nextTime e time) :: trace s.
Proof.
  rewrite seekToTime_cases.
  destruct (seek_accepts e time nowMs s); [right|left]; reflexivity.
Qed.

(** The effects of one notification, most recent first, and what the
    state was for them to happen. *)
Lemma step_effects s ev e :
  exists l, trace (step s (ev, e)) = l ++ trace s /\
  (l = [] \/
   (exists p, l = [Redraw p]) \/
   (exists p, l = [PlayProbe; Redraw p] /\
      loadedListener s = true /\ loadedListener (step s (ev, e)) = false) \/
   (exists nowMs time, l = [SeekWrite nowMs (nextTime e time)] /\
      awaitingPlay s = true) \/
   (exists p nowMs time, l = [Redraw p; SeekWrite nowMs (nextTime e time)] /\
      rafScheduled s = true)).
Proof.
  destruct ev; simpl.
  - destruct (loadedListener s) eqn:Hl.
    + unfold init_start. destruct (skipIntro e); simpl.
      * exists []. split; [reflexivity|left; reflexivity].
      * exists [PlayProbe; Redraw (frameReady e)].
        split; [reflexivity|]. right; right; left.
        eexists; repeat split; reflexivity.
    + exists []. split; [reflexivity|left; reflexivity].
  - destruct (awaitingPlay s) eqn:Ha.
    + unfold init_resume, setupVideoFrameCallback.
      match goal with
      | |- context [seekToTime ?e ?t ?n ?x] =>
          destruct (seekToTime_trace e t n x) as [Ht|Ht];
          set (y := seekToTime e t n x) in *
      end.
      * exists []. split; [|left; reflexivity].
        destruct (negb (rvfcSupported e) || hasRVFC _); simpl; rewrite Ht;
          reflexivity.
      * simpl in Ht.
        match type of Ht with _ = ?w :: _ => exists [w] end. split.
        -- destruct (negb (rvfcSupported e) || hasRVFC _); simpl; rewrite Ht;
             reflexivity.
        -- right; right; right; left. do 2 eexists. split; reflexivity.
    + exists []. split; [reflexivity|left; reflexivity].
  - destruct (rafScheduled s) eqn:Hr.
    + unfold loop. destruct (initialized s).
      * match goal with
        | |- context [seekToTime ?e ?t ?n ?x] =>
            destruct (seekToTime_trace e t n x) as [Ht|Ht];
            set (y := seekToTime e t n x) in *
        end.
        -- exists [Redraw (frameReady e)]. simpl. rewrite Ht.
           split; [reflexivity|]. right; left; eexists; reflexivity.
        -- simpl in Ht.
           match type of Ht with
           | _ = ?w :: _ => exists [Redraw (frameReady e); w]
           end.
           simpl. rewrite Ht. split; [reflexivity|].
           right; right; right; right. do 3 eexists. split; reflexivity.
      * exists []. split; [reflexivity|left; reflexivity].
    + exists []. split; [reflexivity|left; reflexivity].
  - exists [Redraw (frameReady e)]. split; [reflexivity|].
    right; left; eexists; reflexivity.
  - exists [Redraw (frameReady e)]. split; [reflexivity|].
    right; left; eexists; reflexivity.
  - exists [Redraw (frameReady e)]. split; [reflexivity|].
    right; left; eexists; reflexivity.
  - destruct (hasRVFC s).
    + exists [Redraw (frameReady e)]. split; [reflexivity|].
      right; left; eexists; reflexivity.
    + exists []. split; [reflexivity|left; reflexivity].
Qed.

Lemma seeks_of_app l t : seeks_of (l ++ t) = seeks_of t ++ seeks_of l.
Proof.
  induction l as [|x l IH]; simpl.
  - rewrite app_nil_r. reflexivity.
  - destruct x; rewrite ?IH, ?app_assoc; reflexivity.
Qed.

Lemma probes_of_app l t : probes_of (l ++ t) = (probes_of l + probes_of t)%nat.
Proof.
  induction l as [|x l IH]; simpl; [reflexivity|].
  destruct x; rewrite IH; reflexivity.
Qed.

Lemma run_snoc s xs x : run s (xs ++ [x]) = step (run s xs) x.
Proof. unfold run. rewrite fold_left_app. reflexivity. Qed.

(** ** What the synchronizer never does to the media *)

Lemma nextTime_range e time :
  0 <= nextTime e time <= FREEZE_TIME /\
  (forall d, duration e = Some d -> 0 <= d -> nextTime e time <= d).
Proof.
  unfold nextTime, safeDuration, clamp, FREEZE_TIME.
  split.
  - destruct (duration e); minmax_cases; lra.
  - intros d -> Hd. minmax_cases; lra.
Qed.

(** Whatever is notified, every position written to the media is within
    [0, FREEZE_TIME] = [0, 7]. *)
Theorem seeks_within_intro (xs : list (event * env)) :
  Forall (fun w : R * R => 0 <= snd w <= 7)
    (seeks_of (trace (run initial xs))).
Proof.
  induction xs as [|[ev e] xs IH] using rev_ind; [constructor|].
  rewrite run_snoc.
  destruct (step_effects (run initial xs) ev e) as (l & -> & Hl).
  rewrite seeks_of_app. apply Forall_app. split; [exact IH|].
  assert (Hn : forall nowMs time,
             Forall (fun w : R * R => 0 <= snd w <= 7)
               [(nowMs, nextTime e time)]).
  { intros nowMs time. constructor; [|constructor].
    apply (nextTime_range e time). }
  destruct Hl as [->|[[p ->]|[(p & -> & _)|[(n & t & -> & _)|(p & n & t & -> & _)]]]];
    simpl; first [apply Hn | constructor].
Qed.

Lemma loop_frame e nowMs s :
  awaitingPlay (loop e nowMs s) = awaitingPlay s /\
  loadedListener (loop e nowMs s) = loadedListener s /\
  hasRVFC (loop e nowMs s) = hasRVFC s.
Proof.
  unfold loop. destruct (initialized s); simpl; [|repeat split].
  match goal with
  | |- context [seekToTime ?e ?t ?n ?x] =>
      destruct (seekToTime_frame e t n x)
        as (_ & _ & _ & _ & _ & Ev & _ & El & Ea)
  end.
  rewrite Ev, El, Ea. repeat split.
Qed.

Lemma init_resume_frame e s :
  awaitingPlay (init_resume e s) = awaitingPlay s /\
  loadedListener (init_resume e s) = loadedListener s /\
  siteReady (init_resume e s) = siteReady s.
Proof.
  unfold init_resume, setupVideoFrameCallback.
  match goal with
  | |- context [seekToTime ?e ?t ?n ?x] =>
      destruct (seekToTime_frame e t n x)
        as (_ & _ & _ & _ & _ & _ & Er & El & Ea);
      set (y := seekToTime e t n x) in *
  end.
  simpl in *.
  destruct (negb (rvfcSupported e) || hasRVFC y); simpl;
    rewrite Er, El, Ea; repeat split.
Qed.

(** Where the two flags that let a seek through come from: [init] only
    waits once it has probed, and the loop is only scheduled by [init]
    resumed or by itself. *)
Lemma step_flags s x :
  (awaitingPlay (step s x) = true ->
   awaitingPlay s = true \/ In PlayProbe (trace (step s x))) /\
  (rafScheduled (step s x) = true ->
   rafScheduled s = true \/ awaitingPlay s = true).
Proof.
  destruct x as [ev e]. destruct ev; simpl.
  - destruct (loadedListener s); [|split; auto].
    unfold init_start. destruct (skipIntro e); simpl; [split; auto|].
    split; [intros _; right; left; reflexivity|auto].
  - destruct (awaitingPlay s) eqn:E; split; intros; first [congruence|auto].
  - destruct (rafScheduled s) eqn:E;
      [|split; intros; first [congruence|auto]].
    destruct (loop_frame e nowMs s) as (Ea & _). rewrite Ea. split; auto.
  - split; auto.
  - split; auto.
  - split; auto.
  - destruct (hasRVFC s); simpl; split; auto.
Qed.

(** Whatever is notified, the media is not written to unless the
    autoplay probe has been attempted. *)
Theorem no_seek_without_probe (xs : list (event * env)) :
  seeks_of (trace (run initial xs)) = [] \/
  In PlayProbe (trace (run initial xs)).
Proof.
  assert (J : (awaitingPlay (run initial xs) = true \/
               rafScheduled (run initial xs) = true \/
               seeks_of (trace (run initial xs)) <> []) ->
              In PlayProbe (trace (run initial xs))).
  { induction xs as [|[ev e] xs IH] using rev_ind.
    - simpl. intros [H|[H|H]]; try discriminate. contradiction H; reflexivity.
    - rewrite run_snoc. set (s := run initial xs) in *.
      destruct (step_flags s (ev, e)) as [Fa Fr].
      destruct (step_effects s ev e) as (l & Ht & Hl).
      assert (Keep : In PlayProbe (trace s) -> In PlayProbe (trace (step s (ev, e))))
        by (rewrite Ht; intros H; apply in_or_app; right; exact H).
      intros [H|[H|H]].
      + destruct (Fa H) as [H'|H']; [apply Keep, IH; left; exact H'|exact H'].
      + apply Keep, IH. destruct (Fr H) as [H'|H']; [right; left|left]; exact H'.
      + rewrite Ht, seeks_of_app in H. apply Keep, IH.
        destruct Hl as [->|[[p ->]|[(p & -> & _)|[(n & t & -> & Ha)|(p & n & t & -> & Hr)]]]];
          simpl in H; rewrite ?app_nil_r in H;
          try (right; right; exact H);
          [left; exact Ha|right; left; exact Hr]. }
  destruct (seeks_of (trace (run initial xs))) eqn:E.
  - left; reflexivity.
  - right. apply J. right; right. discriminate.
Qed.

(** [init] runs once: whatever is notified, and however often
    "loadeddata" is, the autoplay probe is attempted at most once. *)
Theorem probe_at_most_once (xs : list (event * env)) :
  (probes_of (trace (run initial xs)) <= 1)%nat.
Proof.
  assert (K : (loadedListener (run initial xs) = true ->
               probes_of (trace (run initial xs)) = O) /\
              (probes_of (trace (run initial xs)) <= 1)%nat).
  { induction xs as [|[ev e] xs IH] using rev_ind.
    - simpl. split; [reflexivity|lia].
    - rewrite run_snoc. set (s := run initial xs) in *.
      destruct IH as [I0 I1].
      destruct (step_effects s ev e) as (l & Ht & Hl).
      assert (Hlis : loadedListener (step s (ev, e)) = true ->
                     loadedListener s = true).
      { destruct ev; simpl; auto.
        - destruct (loadedListener s) eqn:E; [|congruence].
          unfold init_start. destruct (skipIntro e); simpl; discriminate.
        - destruct (awaitingPlay s); [|auto].
          destruct (init_resume_frame e (set_awaitingPlay false s))
            as (_ & El & _).
          rewrite El. auto.
        - destruct (rafScheduled s); [|auto].
          destruct (loop_frame e nowMs s) as (_ & El & _).
          rewrite El. auto.
        - destruct (hasRVFC s); simpl; auto. }
      rewrite Ht, probes_of_app.
      set (s' := step s (ev, e)) in *.
      destruct Hl as [->|[[p ->]|[(p & -> & Hb & Ha)|[(n & t & -> & _)|(p & n & t & -> & _)]]]];
        simpl; try (split; [intros H; apply I0, Hlis, H|lia]).
      split; [rewrite Ha; discriminate|].
      rewrite (I0 Hb). lia. }
  apply K.
Qed.

(** ** Ready means the video is at its freeze frame *)

Lemma step_ready_inv s ev e :
  skipIntro e = false ->
  (siteReady s = true -> FREEZE_TIME - SCROLL_SLOP <= smoothTime s) /\
  (loadedListener s = true ->
   siteReady s = false /\ rafScheduled s = false /\ awaitingPlay s = false) /\
  (awaitingPlay s = true -> siteReady s = false /\ rafScheduled s = false) ->
  let s' := step s (ev, e) in
  (siteReady s' = true -> FREEZE_TIME - SCROLL_SLOP <= smoothTime s') /\
  (loadedListener s' = true ->
   siteReady s' = false /\ rafScheduled s' = false /\ awaitingPlay s' = false) /\
  (awaitingPlay s' = true -> siteReady s' = false /\ rafScheduled s' = false).
Proof.
  intros Hk (K1 & K2 & K3). destruct ev; simpl.
  - destruct (loadedListener s) eqn:El; [|rewrite El; auto].
    destruct (K2 eq_refl) as (Hr & Hraf & Ha).
    unfold init_start. rewrite Hk. simpl.
    rewrite Hr, Hraf. repeat split; discriminate.
  - destruct (awaitingPlay s) eqn:Ea; [|rewrite Ea; auto].
    destruct (K3 eq_refl) as (Hr & Hraf).
    destruct (init_resume_frame e (set_awaitingPlay false s)) as (Fa & Fl & Fr).
    simpl in Fa, Fl, Fr. rewrite Fa, Fl, Fr, Hr.
    destruct (loadedListener s) eqn:El;
      [destruct (K2 eq_refl) as (_ & _ & ?); congruence|].
    repeat split; discriminate.
  - destruct (rafScheduled s) eqn:Hraf; [|rewrite Hraf; auto].
    destruct (loop_frame e nowMs s) as (Fa & Fl & _). rewrite Fa, Fl.
    assert (El : loadedListener s = false).
    { destruct (loadedListener s); [|reflexivity].
      destruct (K2 eq_refl) as (_ & ? & _); congruence. }
    assert (Ea : awaitingPlay s = false).
    { destruct (awaitingPlay s); [|reflexivity].
      destruct (K3 eq_refl) as (_ & ?); congruence. }
    rewrite El, Ea.
    split; [|split; discriminate].
    destruct (initialized s) eqn:Hi.
    + destruct (loop_fields e nowMs s Hi) as (_ & _ & _ & Hr & _).
      rewrite Hr. intros H. apply Rleb_true in H. exact H.
    + unfold loop. rewrite Hi. simpl. exact K1.
  - auto.
  - auto.
  - auto.
  - destruct (hasRVFC s); simpl; auto.
Qed.

(** When the intro is not skipped, the page is never marked ready while
    the smoothed time is below FREEZE_TIME - SCROLL_SLOP = 6.98, whatever
    is notified and whatever the timestamps: either the Ready Flag is
    off or the smoothed time is at the freeze frame. *)
Theorem ready_only_at_freeze (xs : list (event * env)) :
  Forall (fun x => skipIntro (snd x) = false) xs ->
  siteReady (run initial xs) = false \/
  6.98 <= smoothTime (run initial xs).
Proof.
  intros Hk.
  assert (K : (siteReady (run initial xs) = true ->
               FREEZE_TIME - SCROLL_SLOP <= smoothTime (run initial xs)) /\
              (loadedListener (run initial xs) = true ->
               siteReady (run initial xs) = false /\
               rafScheduled (run initial xs) = false /\
               awaitingPlay (run initial xs) = false) /\
              (awaitingPlay (run initial xs) = true ->
               siteReady (run initial xs) = false /\
               rafScheduled (run initial xs) = false)).
  { induction xs as [|[ev e] xs IH] using rev_ind.
    - simpl. repeat split; discriminate.
    - apply Forall_app in Hk. destruct Hk as [Hk He].
      apply Forall_cons_iff in He. destruct He as [He _]. simpl in He.
      rewrite run_snoc. apply (step_ready_inv _ ev e He). apply IH, Hk. }
  destruct K as (K1 & _).
  destruct (siteReady (run initial xs)); [right|left; reflexivity].
  specialize (K1 eq_refl). unfold FREEZE_TIME, SCROLL_SLOP in K1. lra.
Qed.

Lemma ready_only_at_freeze_witness :
  let e := env_at (-2000) 3000 1000 in
  let xs := [ (LoadedData, e); (Resize, e); (PlaySettled, e);
              (AnimationFrame 16, e); (AnimationFrame 5, e) ] in
  siteReady (run initial xs) = false \/ 6.98 <= smoothTime (run initial xs).
Proof.
  intros e xs. apply (ready_only_at_freeze xs).
  repeat (apply Forall_cons; [reflexivity|]). apply Forall_nil.
Defined.

(** * The render surface *)

Section Painting.

Variables cw ch iw ih : R.
Variable readyState : Z.
Hypothesis cw_pos : 0 < cw.
Hypothesis ch_pos : 0 < ch.
Hypothesis iw_pos : 0 < iw.
Hypothesis ih_pos : 0 < ih.
Hypothesis decoded : (2 <= readyState)%Z.

Let scale := Rmin (cw / iw) (ch / ih) * Surface.VIDEO_SCALE.
Let sw := iw * scale.
Let sh := ih * scale.
Let dx := (cw - sw) / 2.
Let dy := (ch - sh) / 2.
Let bandY := dy + sh * Surface.BLACK_BAND_START.

Lemma scale_fits :
  0 < scale /\ sw <= 0.86 * cw /\ sh <= 0.86 * ch /\
  (sw = 0.86 * cw \/ sh = 0.86 * ch).
Proof.
  unfold sw, sh, scale, Surface.VIDEO_SCALE.
  assert (Hiw : 0 < / iw) by (apply Rinv_0_lt_compat; exact iw_pos).
  assert (Hih : 0 < / ih) by (apply Rinv_0_lt_compat; exact ih_pos).
  assert (Ea : iw * (cw / iw) = cw) by (field; lra).
  assert (Eb : ih * (ch / ih) = ch) by (field; lra).
  assert (Pa : 0 < cw / iw) by (unfold Rdiv; apply Rmult_lt_0_compat; lra).
  assert (Pb : 0 < ch / ih) by (unfold Rdiv; apply Rmult_lt_0_compat; lra).
  unfold Rmin. destruct (Rle_dec (cw / iw) (ch / ih)) as [H|H].
  - repeat split; nra.
  - repeat split; nra.
Qed.

Lemma band_below_bottom : 0 < bandY < ch.
Proof.
  destruct scale_fits as (_ & _ & Hh & _).
  assert (0 < sh) by (unfold sh; apply Rmult_lt_0_compat;
                      [exact ih_pos|apply scale_fits]).
  unfold bandY, dy, Surface.BLACK_BAND_START. lra.
Qed.

Lemma drawFrame_paint_decoded :
  Surface.drawFrame_paint cw ch iw ih readyState =
  [ Surface.FillGradient 0 0 cw ch;
    Surface.DrawImage dx dy sw sh;
    Surface.FillBlack 0 bandY cw (ch - bandY) ].
Proof.
  unfold Surface.drawFrame_paint.
  assert (Ti : truthy iw = true) by (apply truthy_true; lra).
  assert (Th : truthy ih = true) by (apply truthy_true; lra).
  rewrite Ti, Th. simpl.
  assert (Hz : (readyState <? 2)%Z = false) by (apply Z.ltb_ge; exact decoded).
  rewrite Hz. fold scale. fold sw. fold sh. fold dx. fold dy. fold bandY.
  destruct band_below_bottom as [Hb0 Hb1].
  assert (Hlt : Rltb bandY ch = true) by (apply Rltb_true; exact Hb1).
  rewrite Hlt, Rmax_right by lra. reflexivity.
Qed.

End Painting.

(** With a decoded frame and a canvas that is not empty, drawFrame
    paints the gradient over the whole canvas and then the frame: with
    its aspect ratio kept, centred, strictly inside the canvas, and
    filling 86% of the canvas in the direction that limits it. *)
Theorem frame_fits_centred (cw ch iw ih : R) (readyState : Z) :
  0 < cw -> 0 < ch -> 0 < iw -> 0 < ih -> (2 <= readyState)%Z ->
  exists dx dy sw sh band,
    Surface.drawFrame_paint cw ch iw ih readyState
      = [Surface.FillGradient 0 0 cw ch; Surface.DrawImage dx dy sw sh; band] /\
    0 < sw /\ 0 < sh /\ sw * ih = sh * iw /\
    0 < dx /\ 0 < dy /\ dx + sw + dx = cw /\ dy + sh + dy = ch /\
    sw <= 0.86 * cw /\ sh <= 0.86 * ch /\
    (sw = 0.86 * cw \/ sh = 0.86 * ch).
Proof.
  intros Hcw Hch Hiw Hih Hrs.
  rewrite (drawFrame_paint_decoded cw ch iw ih readyState Hcw Hch Hiw Hih Hrs).
  destruct (scale_fits cw ch iw ih Hcw Hch Hiw Hih) as (Hs & Hw & Hh & Hfit).
  do 5 eexists. split; [reflexivity|].
  set (scale := Rmin (cw / iw) (ch / ih) * Surface.VIDEO_SCALE) in *.
  assert (0 < iw * scale) by (apply Rmult_lt_0_compat; assumption).
  assert (0 < ih * scale) by (apply Rmult_lt_0_compat; assumption).
  repeat split; try assumption; try lra.
Qed.

Lemma frame_fits_centred_witness :
  exists dx dy sw sh band,
    Surface.drawFrame_paint 1280 720 1920 1080 4
      = [Surface.FillGradient 0 0 1280 720; Surface.DrawImage dx dy sw sh; band] /\
    0 < sw /\ 0 < sh /\ sw * 1080 = sh * 1920 /\
    0 < dx /\ 0 < dy /\ dx + sw + dx = 1280 /\ dy + sh + dy = 720 /\
    sw <= 0.86 * 1280 /\ sh <= 0.86 * 720 /\
    (sw = 0.86 * 1280 \/ sh = 0.86 * 720).
Proof.
  apply (frame_fits_centred 1280 720 1920 1080 4); try lra. lia.
Defined.

(** With a decoded frame and a canvas that is not empty, the black band
    is always painted: it starts inside the drawn frame, 74% of the way
    down, spans the full width of the canvas and ends exactly at its
    bottom edge. *)
Theorem black_band_reaches_bottom (cw ch iw ih : R) (readyState : Z) :
  0 < cw -> 0 < ch -> 0 < iw -> 0 < ih -> (2 <= readyState)%Z ->
  exists dx dy sw sh y h,
    Surface.drawFrame_paint cw ch iw ih readyState
      = [ Surface.FillGradient 0 0 cw ch; Surface.DrawImage dx dy sw sh;
          Surface.FillBlack 0 y cw h ] /\
    y = dy + 0.74 * sh /\ dy < y < dy + sh /\ 0 < h /\ y + h = ch.
Proof.
  intros Hcw Hch Hiw Hih Hrs.
  rewrite (drawFrame_paint_decoded cw ch iw ih readyState Hcw Hch Hiw Hih Hrs).
  destruct (scale_fits cw ch iw ih Hcw Hch Hiw Hih) as (Hs & _).
  destruct (band_below_bottom cw ch iw ih Hcw Hch Hiw Hih) as (Hb0 & Hb1).
  do 6 eexists. split; [reflexivity|].
  set (scale := Rmin (cw / iw) (ch / ih) * Surface.VIDEO_SCALE) in *.
  assert (0 < ih * scale) by (apply Rmult_lt_0_compat; assumption).
  unfold Surface.BLACK_BAND_START in *.
  repeat split; lra.
Qed.

Lemma black_band_reaches_bottom_witness :
  exists dx dy sw sh y h,
    Surface.drawFrame_paint 390 844 1920 1080 2
      = [ Surface.FillGradient 0 0 390 844; Surface.DrawImage dx dy sw sh;
          Surface.FillBlack 0 y 390 h ] /\
    y = dy + 0.74 * sh /\ dy < y < dy + sh /\ 0 < h /\ y + h = 844.
Proof.
  apply (black_band_reaches_bottom 390 844 1920 1080 2); try lra. lia.
Defined.

(** ** The size of the canvas *)


Lemma Int_part_nonneg r : 0 <= r -> (0 <= Int_part r)%Z.
Proof.
  intros Hr. destruct (base_Int_part r) as [_ H].
  assert (H1 : IZR (-1) < IZR (Int_part r)) by (simpl; lra).
  apply lt_IZR in H1. lia.
Qed.



(** * The parallax of the gate *)

Lemma Rabs_le_bounds a b : Rabs a <= b -> - b <= a <= b.
Proof. unfold Rabs. destruct (Rcase_abs a); lra. Qed.

Lemma pointermove_target x y r g :
  Gate.inside (Gate.PointerMove x y r) ->
  Rabs (Gate.tx (Gate.pointermove x y r g)) <= 7 /\
  Rabs (Gate.ty (Gate.pointermove x y r g)) <= 5.
Proof.
  intros (Hw & Hh & Hx & Hy). simpl.
  assert (Ax : 0 <= (x - Gate.left r) / Gate.width r <= 1).
  { assert (0 < / Gate.width r) by (apply Rinv_0_lt_compat; exact Hw).
    split.
    - unfold Rdiv. apply Rmult_le_pos; lra.
    - apply (Rmult_le_reg_r (Gate.width r)); [exact Hw|].
      unfold Rdiv. rewrite Rmult_assoc, Rinv_l by lra. lra. }
  assert (Ay : 0 <= (y - Gate.top r) / Gate.height r <= 1).
  { assert (0 < / Gate.height r) by (apply Rinv_0_lt_compat; exact Hh).
    split.
    - unfold Rdiv. apply Rmult_le_pos; lra.
    - apply (Rmult_le_reg_r (Gate.height r)); [exact Hh|].
      unfold Rdiv. rewrite Rmult_assoc, Rinv_l by lra. lra. }
  split; apply Rabs_le; lra.
Qed.

Lemma gate_step_within g ev :
  Gate.inside ev -> Gate.within g -> Gate.within (Gate.step g ev).
Proof.
  intros Hin (Hpx & Hpy & Htx & Hty).
  destruct ev as [x y r| |]; unfold Gate.within; simpl.
  - destruct (pointermove_target x y r g Hin) as [Hx Hy].
    repeat split; assumption.
  - repeat split; try assumption; rewrite Rabs_R0; lra.
  - apply Rabs_le_bounds in Hpx, Hpy, Htx, Hty.
    repeat split; try (apply Rabs_le; simpl; lra); assumption.
Qed.

(** As long as the pointer events come from over the gate, the inner
    element is never shifted by more than 7 px sideways and 5 px up or
    down, whatever the order of pointer events and frames. *)
Theorem gate_offsets_bounded (evs : list Gate.event) :
  Forall Gate.inside evs ->
  Rabs (Gate.px (Gate.run Gate.rest evs)) <= 7 /\
  Rabs (Gate.py (Gate.run Gate.rest evs)) <= 5.
Proof.
  intros Hin.
  assert (H : forall g, Gate.within g -> Gate.within (Gate.run g evs)).
  { induction Hin as [|ev evs Hev Hevs IH]; intros g Hg; [exact Hg|].
    apply (IH (Gate.step g ev)). apply gate_step_within; assumption. }
  destruct (H Gate.rest) as (Hx & Hy & _).
  - unfold Gate.rest. repeat split; simpl; rewrite Rabs_R0; lra.
  - split; assumption.
Qed.

Lemma gate_offsets_bounded_witness :
  let r := Gate.mkBox 100 50 400 300 in
  let evs := [Gate.PointerMove 500 50 r; Gate.Frame; Gate.Frame;
              Gate.PointerLeave; Gate.Frame] in
  Rabs (Gate.px (Gate.run Gate.rest evs)) <= 7 /\
  Rabs (Gate.py (Gate.run Gate.rest evs)) <= 5.
Proof.
  intros r evs. apply (gate_offsets_bounded evs).
  apply Forall_cons; [simpl; lra|].
  repeat (apply Forall_cons; [exact I|]). apply Forall_nil.
Defined.

(** Frames in a row with no pointer event in between: each one leaves
    92% of the way to the target. *)
Lemma gate_frames_gap n : forall g,
  let g' := Gate.run g (repeat Gate.Frame n) in
  Gate.tx g' = Gate.tx g /\ Gate.ty g' = Gate.ty g /\
  Gate.px g' - Gate.tx g = (Gate.px g - Gate.tx g) * 0.92 ^ n /\
  Gate.py g' - Gate.ty g = (Gate.py g - Gate.ty g) * 0.92 ^ n.
Proof.
  induction n as [|n IH]; intros g.
  - simpl. repeat split; ring.
  - change (Gate.run g (repeat Gate.Frame (S n)))
      with (Gate.run (Gate.animateGate g) (repeat Gate.Frame n)).
    destruct (IH (Gate.animateGate g)) as (A & B & C & D).
    set (g' := Gate.run (Gate.animateGate g) (repeat Gate.Frame n)) in *.
    simpl in A, B, C, D. simpl.
    split; [exact A|]. split; [exact B|].
    split; [rewrite C|rewrite D]; generalize (0.92 ^ n); intros q.
    + replace (Gate.px g + (Gate.tx g - Gate.px g) * 0.08 - Gate.tx g)
        with ((Gate.px g - Gate.tx g) * 0.92) by lra.
      ring.
    + replace (Gate.py g + (Gate.ty g - Gate.py g) * 0.08 - Gate.ty g)
        with ((Gate.py g - Gate.ty g) * 0.92) by lra.
      ring.
Qed.

(** After the pointer has left the gate, every frame shrinks the shift
    of the inner element to 92% of what it was: after n frames it is
    0.92^n times the shift at the time of leaving, on its way back to
    rest. *)
Theorem gate_returns_to_rest (n : nat) (g : Gate.offsets) :
  let g' := Gate.run g (Gate.PointerLeave :: repeat Gate.Frame n) in
  Gate.px g' = Gate.px g * 0.92 ^ n /\
  Gate.py g' = Gate.py g * 0.92 ^ n /\
  Rabs (Gate.px g') <= Rabs (Gate.px g) /\
  Rabs (Gate.py g') <= Rabs (Gate.py g).
Proof.
  intros g'.
  destruct (gate_frames_gap n (Gate.pointerleave g)) as (_ & _ & C & D).
  change (Gate.run (Gate.pointerleave g) (repeat Gate.Frame n)) with g' in C, D.
  simpl in C, D.
  assert (Ex : Gate.px g' = Gate.px g * 0.92 ^ n) by lra.
  assert (Ey : Gate.py g' = Gate.py g * 0.92 ^ n) by lra.
  assert (Hp : 0 <= 0.92 ^ n <= 1).
  { split; [apply pow_le; lra|].
    rewrite <- (pow1 n). apply pow_incr. lra. }
  split; [exact Ex|]. split; [exact Ey|].
  rewrite Ex, Ey, !Rabs_mult, (Rabs_pos_eq (0.92 ^ n)) by lra.
  pose proof (Rabs_pos (Gate.px g)). pose proof (Rabs_pos (Gate.py g)).
  split; nra.
Qed.

(** * Reveal on scroll *)

Lemma add_show_In t l x : In x (Reveal.add_show t l) <-> x = t \/ In x l.
Proof.
  unfold Reveal.add_show. destruct (in_dec Nat.eq_dec t l) as [H|H]; simpl.
  - split; [auto|]. intros [->|H']; assumption.
  - split; intros [E|H']; auto.
Qed.

Lemma on_entry_spec p t b x :
  (In x (Reveal.shown (Reveal.on_entry p (t, b)))
   <-> In x (Reveal.shown p) \/ (b = true /\ x = t)) /\
  (In x (Reveal.observed (Reveal.on_entry p (t, b)))
   <-> In x (Reveal.observed p) /\ ~ (b = true /\ x = t)).
Proof.
  unfold Reveal.on_entry. destruct b; simpl.
  - rewrite add_show_In. split.
    + split; intros [H|H]; auto. destruct H; auto.
    + split.
      * intros H. apply in_remove in H. destruct H as [H1 H2].
        split; [exact H1|]. intros [_ E]. contradiction.
      * intros [H1 H2]. apply in_in_remove; [|exact H1].
        intros E. apply H2. split; [reflexivity|exact E].
  - split.
    + split; [auto|]. intros [H|[H _]]; [exact H|discriminate].
    + split; [intros H; split; [exact H|intros [H' _]; discriminate]|].
      intros [H _]; exact H.
Qed.

(** What one call of the observer's callback does to the page, for any
    batch of entries: an element has "show" afterwards exactly when it
    had it before or one of its entries is intersecting, and it is
    still observed exactly when it was and none of its entries is
    intersecting.  So nothing is ever hidden again, and an element
    leaves the observer only by being shown. *)
Theorem reveal_callback (p : Reveal.page) (es : list Reveal.entry) (x : nat) :
  (In x (Reveal.shown (Reveal.callback p es))
   <-> In x (Reveal.shown p) \/ In (x, true) es) /\
  (In x (Reveal.observed (Reveal.callback p es))
   <-> In x (Reveal.observed p) /\ ~ In (x, true) es).
Proof.
  revert p. induction es as [|[t b] es IH]; intros p.
  - simpl. tauto.
  - change (Reveal.callback p ((t, b) :: es))
      with (Reveal.callback (Reveal.on_entry p (t, b)) es).
    destruct (IH (Reveal.on_entry p (t, b))) as [Hs Ho].
    destruct (on_entry_spec p t b x) as [Es Eo].
    rewrite Hs, Ho, Es, Eo. simpl.
    assert (Heq : (t, b) = (x, true) <-> b = true /\ x = t).
    { split; [intros [= -> ->]; auto|intros [-> ->]; reflexivity]. }
    rewrite Heq. tauto.
Qed.

(** An element that is observed or shown is still one or the other after
    an entry, and so after a batch. *)
Lemma on_entry_keeps p en x :
  In x (Reveal.observed p) \/ In x (Reveal.shown p) ->
  In x (Reveal.observed (Reveal.on_entry p en)) \/
  In x (Reveal.shown (Reveal.on_entry p en)).
Proof.
  destruct en as [t b]. destruct (on_entry_spec p t b x) as [Es Eo].
  rewrite Es, Eo.
  destruct b; [|intuition discriminate].
  destruct (Nat.eq_dec x t); tauto.
Qed.

Lemma callback_keeps es x : forall p,
  In x (Reveal.observed p) \/ In x (Reveal.shown p) ->
  In x (Reveal.observed (Reveal.callback p es)) \/
  In x (Reveal.shown (Reveal.callback p es)).
Proof.
  induction es as [|en es IH]; intros p Hp; [exact Hp|].
  apply (IH (Reveal.on_entry p en)). apply on_entry_keeps. exact Hp.
Qed.

(** Every reveal item is observed from the start; whatever batches of
    entries the observer delivers afterwards, each item is still
    observed or has been shown: none is lost. *)
Theorem reveal_none_lost (items already : list nat)
    (batches : list (list Reveal.entry)) (x : nat) :
  In x items ->
  let p := fold_left Reveal.callback batches (Reveal.observe_all items already) in
  In x (Reveal.observed p) \/ In x (Reveal.shown p).
Proof.
  intros Hx.
  assert (H : forall p, In x (Reveal.observed p) \/ In x (Reveal.shown p) ->
            In x (Reveal.observed (fold_left Reveal.callback batches p)) \/
            In x (Reveal.shown (fold_left Reveal.callback batches p))).
  { induction batches as [|es batches IH]; intros p Hp; [exact Hp|].
    simpl. apply IH. apply callback_keeps. exact Hp. }
  apply H. left. exact Hx.
Qed.

Lemma reveal_none_lost_witness :
  let p := fold_left Reveal.callback
             [[(1%nat, false); (2%nat, true)]; [(2%nat, true); (3%nat, false)]]
             (Reveal.observe_all [1%nat; 2%nat; 3%nat] []) in
  In 2%nat (Reveal.observed p) \/ In 2%nat (Reveal.shown p).
Proof.
  apply (reveal_none_lost [1%nat; 2%nat; 3%nat] []
           [[(1%nat, false); (2%nat, true)]; [(2%nat, true); (3%nat, false)]]
           2%nat).
  simpl. right; left; reflexivity.
Defined.

(** * The moon on the page *)

(** The days since the reference new moon, as moonPhase computes them. *)
Lemma moonPhase_phase_eq date :
  phase (moonPhase date)
  = js_rem (js_rem (IZR (date - knownNewMoon) / 1000 / 60 / 60 / 24) synodicMonth
            + synodicMonth) synodicMonth.
Proof. reflexivity. Qed.

(** The double remainder is the remainder of the floored division. *)
Lemma double_rem_floor (d m : R) :
  0 < m ->
  js_rem (js_rem d m + m) m = d - m * IZR (Int_part (d / m)).
Proof.
  intros Hm.
  pose proof (js_rem_abs d m Hm) as H1.
  assert (H2 : 0 <= js_rem d m + m) by lra.
  pose proof (js_rem_nonneg _ m Hm H2) as H3.
  set (k1 := Rtrunc (d / m)) in *.
  set (k2 := Rtrunc ((js_rem d m + m) / m)) in *.
  assert (E : js_rem (js_rem d m + m) m = d - m * IZR (k1 + k2 - 1)).
  { assert (E1 : js_rem d m = d - m * IZR k1) by reflexivity.
    assert (E2 : js_rem (js_rem d m + m) m
                 = js_rem d m + m - m * IZR k2) by reflexivity.
    rewrite E2, E1, minus_IZR, plus_IZR. ring. }
  rewrite E in *. f_equal. f_equal. f_equal.
  apply Int_part_spec.
  assert (Hi : 0 < / m) by (apply Rinv_0_lt_compat; exact Hm).
  assert (Ed : d / m * m = d) by (field; lra).
  split.
  - apply (Rmult_lt_reg_r m); [exact Hm|]. nra.
  - apply (Rmult_le_reg_r m); [exact Hm|]. nra.
Qed.


Lemma moon_ranges date :
  0 <= phase (moonPhase date) < synodicMonth /\
  0 <= illumination (moonPhase date) <= 1.
Proof.
  rewrite moonPhase_phase_eq.
  pose proof synodicMonth_pos as Hm.
  split.
  - apply js_rem_nonneg; [exact Hm|].
    pose proof (js_rem_abs (IZR (date - knownNewMoon) / 1000 / 60 / 60 / 24)
                  synodicMonth Hm). lra.
  - unfold moonPhase; simpl.
    match goal with |- context [cos ?a] => pose proof (COS_bound a) end.
    lra.
Qed.

Lemma js_round_range (x : R) (n : Z) :
  0 <= x <= IZR n ->
  (0 <= MoonView.js_round x <= n)%Z.
Proof.
  intros [H0 H1]. unfold MoonView.js_round.
  destruct (base_Int_part (x + 0.5)) as [A B].
  split.
  - apply Int_part_nonneg. lra.
  - assert (H : IZR (Int_part (x + 0.5)) < IZR (n + 1))
      by (rewrite plus_IZR; simpl; lra).
    apply lt_IZR in H. lia.
Qed.

(** For every date the percentage that renderMoon shows is a whole
    number from 0 to 100 and the width of the shadow a whole number from
    0 to 70; the shadow is never negative. *)
Theorem renderMoon_ranges (now : Z) :
  (0 <= MoonView.illuminationPct (MoonView.renderMoon now) <= 100)%Z /\
  (0 <= MoonView.shadow (MoonView.renderMoon now) <= 70)%Z.
Proof.
  destruct (moon_ranges now) as [_ [Hi0 Hi1]].
  unfold MoonView.renderMoon.
  set (i := illumination (moonPhase now)) in *.
  split; apply js_round_range; lra.
Qed.

(** ** The label and the percentage agree *)

Lemma sin_sqr_le (w : R) : - 1 <= w <= 1 -> sin w * sin w <= w * w.
Proof.
  intros Hw.
  assert (HPI : 3 < PI) by (pose proof PI2_3_2; lra).
  assert (Pos : forall v, 0 < v <= 1 -> 0 < sin v < v).
  { intros v Hv. split; [apply sin_gt_0; lra|apply sin_lt_x; lra]. }
  destruct (Rtotal_order w 0) as [Hn|[->|Hp]].
  - destruct (Pos (- w) ltac:(lra)) as [A B].
    rewrite sin_neg in A, B. nra.
  - rewrite sin_0. lra.
  - destruct (Pos w ltac:(lra)) as [A B]. nra.
Qed.

(** The illumination is the square of the sine of half the angle of the
    phase. *)
Lemma illumination_sin date :
  illumination (moonPhase date)
  = sin (PI * (phase (moonPhase date) / synodicMonth))
    * sin (PI * (phase (moonPhase date) / synodicMonth)).
Proof.
  unfold moonPhase; simpl.
  set (ph := js_rem _ synodicMonth).
  replace (2 * PI * ph / synodicMonth) with (2 * (PI * (ph / synodicMonth)))
    by (unfold Rdiv; ring).
  rewrite cos_2a_sin. lra.
Qed.

Lemma phaseName_new_moon ph :
  MoonView.phaseName ph = "Lua Nova"%string ->
  ph / 29.530588853 < 0.03 \/ 0.97 <= ph / 29.530588853.
Proof.
  unfold MoonView.phaseName, Rltb.
  repeat (destruct (Rlt_dec _ _); [try discriminate; try (intros _; left; assumption)|]).
  intros _. right. lra.
Qed.

Lemma phaseName_full_moon ph :
  MoonView.phaseName ph = "Lua Cheia"%string ->
  0.47 <= ph / 29.530588853 < 0.53.
Proof.
  unfold MoonView.phaseName, Rltb.
  repeat (destruct (Rlt_dec _ _); [try discriminate; try (intros _; lra)|]).
  discriminate.
Qed.

Lemma PI_small (t : R) : 0 <= t <= 0.03 -> 0 <= PI * t <= 0.12.
Proof.
  intros Ht. pose proof PI_4. pose proof PI_RGT_0. split; nra.
Qed.

(** Near the ends and near the middle of the cycle the illumination is
    within 0.0144 of 0 and of 1. *)
Lemma illumination_near_new date :
  phase (moonPhase date) / synodicMonth < 0.03 \/
  0.97 <= phase (moonPhase date) / synodicMonth ->
  illumination (moonPhase date) <= 0.0144.
Proof.
  intros Hp. rewrite illumination_sin.
  destruct (moon_ranges date) as [[P0 P1] _].
  pose proof synodicMonth_pos as Hm.
  set (pct := phase (moonPhase date) / synodicMonth) in *.
  assert (Hpct : 0 <= pct < 1).
  { assert (0 < / synodicMonth) by (apply Rinv_0_lt_compat; exact Hm).
    unfold pct, Rdiv. split; [apply Rmult_le_pos; lra|].
    apply (Rmult_lt_reg_r synodicMonth); [exact Hm|].
    rewrite Rmult_assoc, Rinv_l by lra. lra. }
  destruct Hp as [Hlo|Hhi].
  - destruct (PI_small pct ltac:(lra)) as [A B].
    pose proof (sin_sqr_le (PI * pct) ltac:(lra)). nra.
  - destruct (PI_small (1 - pct) ltac:(lra)) as [A B].
    pose proof (sin_sqr_le (PI * (1 - pct)) ltac:(lra)) as Hs.
    replace (PI * pct) with (PI - PI * (1 - pct)) by ring.
    rewrite sin_PI_x. nra.
Qed.

Lemma illumination_near_full date :
  0.47 <= phase (moonPhase date) / synodicMonth < 0.53 ->
  0.9856 <= illumination (moonPhase date).
Proof.
  intros Hp. rewrite illumination_sin.
  set (pct := phase (moonPhase date) / synodicMonth) in *.
  replace (PI * pct) with (PI / 2 + PI * (pct - 0.5)) by lra.
  rewrite <- cos_sin.
  set (w := PI * (pct - 0.5)).
  assert (Hw : - 0.12 <= w <= 0.12).
  { unfold w. destruct (Rle_dec 0.5 pct).
    - destruct (PI_small (pct - 0.5) ltac:(lra)). lra.
    - destruct (PI_small (0.5 - pct) ltac:(lra)). lra. }
  pose proof (sin_sqr_le w ltac:(lra)) as Hs.
  pose proof (sin2_cos2 w) as Hsc. unfold Rsqr in Hsc.
  nra.
Qed.

(** Whenever the label is "Lua Nova" the percentage shown is 0 or 1. *)
Theorem new_moon_label_is_dark (now : Z) :
  MoonView.phaseLabel (MoonView.renderMoon now) = "Lua Nova"%string ->
  (0 <= MoonView.illuminationPct (MoonView.renderMoon now) <= 1)%Z.
Proof.
  intros Hl. simpl in Hl. apply phaseName_new_moon in Hl.
  pose proof (illumination_near_new now Hl) as Hi.
  destruct (moon_ranges now) as [_ [Hi0 _]].
  unfold MoonView.renderMoon.
  set (i := illumination (moonPhase now)) in *.
  simpl MoonView.illuminationPct. unfold MoonView.js_round.
  destruct (base_Int_part (i * 100 + 0.5)) as [A B].
  split; [apply Int_part_nonneg; lra|].
  assert (H : IZR (Int_part (i * 100 + 0.5)) < IZR 2) by lra.
  apply lt_IZR in H. lia.
Qed.

(** Whenever the label is "Lua Cheia" the percentage shown is 99 or
    100. *)
Theorem full_moon_label_is_bright (now : Z) :
  MoonView.phaseLabel (MoonView.renderMoon now) = "Lua Cheia"%string ->
  (99 <= MoonView.illuminationPct (MoonView.renderMoon now) <= 100)%Z.
Proof.
  intros Hl. simpl in Hl. apply phaseName_full_moon in Hl.
  pose proof (illumination_near_full now Hl) as Hi.
  destruct (moon_ranges now) as [_ [_ Hi1]].
  unfold MoonView.renderMoon.
  set (i := illumination (moonPhase now)) in *.
  simpl MoonView.illuminationPct. unfold MoonView.js_round.
  destruct (base_Int_part (i * 100 + 0.5)) as [A B].
  split.
  - assert (H : IZR 98 < IZR (Int_part (i * 100 + 0.5))) by lra.
    apply lt_IZR in H. lia.
  - assert (H : IZR (Int_part (i * 100 + 0.5)) < IZR 101) by lra.
    apply lt_IZR in H. lia.
Qed.

(** Within the first cycle after the reference new moon the phase is the
    number of days since then. *)
Lemma moonPhase_first_cycle (date ms : Z) :
  (date - knownNewMoon)%Z = ms ->
  0 <= IZR ms / 1000 / 60 / 60 / 24 < synodicMonth ->
  phase (moonPhase date) = IZR ms / 1000 / 60 / 60 / 24.
Proof.
  intros E Hd. rewrite moonPhase_phase_eq, E.
  set (d := IZR ms / 1000 / 60 / 60 / 24) in *.
  pose proof synodicMonth_pos as Hm.
  rewrite double_rem_floor by exact Hm.
  replace (Int_part (d / synodicMonth)) with 0%Z; [simpl; ring|].
  apply Int_part_spec. simpl.
  assert (Hi : 0 < / synodicMonth) by (apply Rinv_0_lt_compat; exact Hm).
  split.
  - apply (Rmult_lt_reg_r synodicMonth); [exact Hm|].
    unfold Rdiv at 1. rewrite Rmult_minus_distr_r, Rmult_assoc, Rinv_l by lra.
    lra.
  - unfold Rdiv at 1. apply Rmult_le_pos; lra.
Qed.

Lemma new_moon_label_is_dark_witness :
  (0 <= MoonView.illuminationPct (MoonView.renderMoon 1704974220000) <= 1)%Z.
Proof.
  apply (new_moon_label_is_dark 1704974220000).
  change (MoonView.phaseName (phase (moonPhase 1704974220000))
          = "Lua Nova"%string).
  rewrite (moonPhase_first_cycle 1704974220000 0 eq_refl)
    by (unfold synodicMonth; lra).
  unfold MoonView.phaseName.
  decide_cmp. reflexivity.
Defined.

Lemma full_moon_label_is_bright_witness :
  (99 <= MoonView.illuminationPct (MoonView.renderMoon 1706249941440) <= 100)%Z.
Proof.
  apply (full_moon_label_is_bright 1706249941440).
  change (MoonView.phaseName (phase (moonPhase 1706249941440))
          = "Lua Cheia"%string).
  rewrite (moonPhase_first_cycle 1706249941440 1275721440 eq_refl)
    by (unfold synodicMonth; lra).
  unfold MoonView.phaseName.
  decide_cmp. reflexivity.
Defined.

(** * More on seeking and on the start *)

(** A call of seekToTime writes at most one position, and that position
    is never negative, never past FREEZE_TIME, and never past the end
    of the media when the media reports a duration. *)
Theorem seek_within_media (e : env) (time nowMs : R) (s : state) :
  trace (seekToTime e time nowMs s) = trace s \/
  exists p,
    trace (seekToTime e time nowMs s) = SeekWrite nowMs p :: trace s /\
    0 <= p <= 7 /\
    (forall d, duration e = Some d -> 0 <= d -> p <= d).
Proof.
  destruct (seekToTime_trace e time nowMs s) as [H|H]; [left; exact H|].
  right. exists (nextTime e time). split; [exact H|].
  apply (nextTime_range e time).
Qed.

(** A call whose clamped time is within half the minimum time step
    (1/90) of where the media already is changes nothing and writes
    nothing, however long ago the last seek was and whatever was
    requested last. *)
Theorem seek_already_there (e : env) (time nowMs : R) (s : state) :
  Rabs (currentTime e - nextTime e time) <= 1 / 90 ->
  seekToTime e time nowMs s = s.
Proof.
  intros H. rewrite <- half_step in H. apply Rleb_true in H.
  unfold seekToTime. rewrite H.
  destruct (negb (initialized s)); [reflexivity|].
  destruct (Rltb (nowMs - lastSeekAt s) minSeekInterval); [reflexivity|].
  destruct (Rleb (Rabs (lastRequestedTime s - nextTime e time))
              (MIN_TIME_STEP * 0.5)); reflexivity.
Qed.

Lemma seek_already_there_witness :
  seekToTime (env_media 3) 3.01 5000 (running 3.01 3.01 4984 0 (-1))
    = running 3.01 3.01 4984 0 (-1).
Proof.
  apply (seek_already_there (env_media 3) 3.01 5000
           (running 3.01 3.01 4984 0 (-1))).
  rewrite nextTime_in_range;
    [ simpl; unfold Rabs; destruct (Rcase_abs _); lra
    | unfold FREEZE_TIME; lra
    | reflexivity ].
Defined.

(** The start has no transition of its own: when the promise of
    video.play() settles, smoothed time is put on the target of the
    scroll position, and if the page has not been scrolled by the first
    frame, that frame leaves it there, whatever its timestamp. *)
Theorem init_without_transition (e e' : env) (nowMs : R) (s : state) :
  awaitingPlay s = true ->
  target_of e' = target_of e ->
  let s1 := step s (PlaySettled, e) in
  let s2 := step s1 (AnimationFrame nowMs, e') in
  smoothTime s1 = target_of e /\ targetTime s1 = target_of e /\
  smoothTime s2 = target_of e /\ targetTime s2 = target_of e.
Proof.
  intros Ha Ht s1 s2.
  assert (E1 : s1 = init_resume e (set_awaitingPlay false s))
    by (unfold s1; simpl; rewrite Ha; reflexivity).
  destruct (init_resume_fields e (set_awaitingPlay false s))
    as (Et & Es & _ & Hi & Hr).
  rewrite <- E1 in Et, Es, Hi, Hr.
  assert (E2 : s2 = loop e' nowMs s1)
    by (unfold s2; simpl; rewrite Hr; reflexivity).
  destruct (loop_fields e' nowMs s1 Hi) as (Et2 & Es2 & _).
  rewrite <- E2 in Et2, Es2.
  rewrite Es, Ht in Es2. rewrite Ht in Et2.
  repeat split; try assumption.
  rewrite Es2. ring.
Qed.

Lemma init_without_transition_witness :
  let e := env_at (-500) 3000 1000 in
  let s := step initial (LoadedData, e) in
  let s1 := step s (PlaySettled, e) in
  let s2 := step s1 (AnimationFrame 40, e) in
  smoothTime s1 = target_of e /\ targetTime s1 = target_of e /\
  smoothTime s2 = target_of e /\ targetTime s2 = target_of e.
Proof.
  intros e s.
  apply (init_without_transition e e 40 s); reflexivity.
Defined.
